(** * Antiflood quota engine, pool cleaner and interceptor factory:
      a shallow embedding of the Go sources and the properties they satisfy.

    The three modules follow the three source units:
    - [FloodPreventers]: [quotaFloodPreventer] (package floodPreventers),
    - [PoolsCleaner]: [txsPoolsCleaner] (package poolsCleaner),
    - [InterceptorsContainer]: [NewShardInterceptorsContainerFactory]
      (package interceptorscontainer).

    Unsigned Go integers are natural numbers ([N]) with the wrap-around of
    every addition written out; [int64] is [Z] with a signed wrap. *)

From stdpp Require Import gmap strings list fin_maps.
From Stdlib Require Import NArith ZArith Lia.

(** ** Machine integers *)

Definition uint32 (n : N) : N := (n mod 2 ^ 32)%N.
Definition uint64 (n : N) : N := (n mod 2 ^ 64)%N.

(** Two's complement reduction of a mathematical integer to [int64]. *)
Definition int64 (z : Z) : Z := ((z + 2 ^ 63) mod 2 ^ 64 - 2 ^ 63)%Z.

Module FloodPreventers.

Local Open Scope N_scope.

(** const minMessages = 1, minTotalSize = 1, initNumMessages = 1 *)
Definition minMessages : N := 1.
Definition minTotalSize : N := 1.
Definition initNumMessages : N := 1.

(** type quota struct *)
Record quota := Quota {
  numReceivedMessages : N;    (* uint32 *)
  sizeReceivedMessages : N;   (* uint64 *)
  numProcessedMessages : N;   (* uint32 *)
  sizeProcessedMessages : N;  (* uint64 *)
}.

(** [&quota{}] : the zero value. *)
Definition zeroQuota : quota := Quota 0 0 0 0.

#[global] Instance quota_inhabited : Inhabited quota := populate zeroQuota.

#[global] Instance quota_eq_dec : EqDecision quota.
Proof. solve_decision. Defined.

(** The cache holds [interface{}] values.  The flood preventer stores
    pointers to [quota] objects in it; a pointer is a location of the object
    store below, so that the object reached through the cache and the object
    mutated by [accumulate] are one and the same.  A value of any other
    dynamic type fails the type assertion of [accumulate].  The code never
    puts a nil pointer in the cache. *)
Definition loc := nat.

Inductive value :=
  | QuotaPtr (l : loc)
  | OtherValue.

#[global] Instance value_eq_dec : EqDecision value.
Proof. solve_decision. Defined.

(** *** The quota cache (storage.Cacher) *)

(** Modelled from the spec: the storage.Cacher implementation is not part of
    the sources; the spec (4.A) describes it as a mapping from peer identifier to
    record with a fixed maximum number of entries and LRU eviction, with
    operations get, put, keys and clear.  [entries] is ordered from the most
    recently used key to the least recently used one. *)
Record Cacher := MkCacher {
  maxEntries : nat;
  entries : list (string * value);
}.

(** Modelled from the spec: the value bound to [k] in the cache, if any. *)
Fixpoint find_entry (k : string) (l : list (string * value)) : option value :=
  match l with
  | [] => None
  | (k', v) :: l' => if decide (k' = k) then Some v else find_entry k l'
  end.

(** Modelled from the spec: the entries of the cache without those of [k]. *)
Fixpoint drop_entry (k : string) (l : list (string * value)) : list (string * value) :=
  match l with
  | [] => []
  | (k', v) :: l' => if decide (k' = k) then drop_entry k l' else (k', v) :: drop_entry k l'
  end.

(** Modelled from the spec: a new cache of at most [size] entries. *)
Definition NewCacher (size : nat) : Cacher := MkCacher size [].

(** Modelled from the spec: get(k) → (record?, present); a hit makes [k] the
    most recently used key. *)
Definition Get (c : Cacher) (k : string) : option value * Cacher :=
  match find_entry k (entries c) with
  | Some v => (Some v, MkCacher (maxEntries c) ((k, v) :: drop_entry k (entries c)))
  | None => (None, c)
  end.

(** Modelled from the spec: put(k, record); [k] becomes the most recently
    used key and the least recently used entries beyond the maximum are
    evicted. *)
Definition Put (c : Cacher) (k : string) (v : value) : Cacher :=
  MkCacher (maxEntries c) (take (maxEntries c) ((k, v) :: drop_entry k (entries c))).

(** Modelled from the spec: keys() → snapshot. *)
Definition Keys (c : Cacher) : list string := (entries c).*1.

(** Modelled from the spec: clear(). *)
Definition Clear (c : Cacher) : Cacher := MkCacher (maxEntries c) [].

(** *** Status handlers *)

(** A [QuotaStatusHandler] is an interface with three methods; a handler is
    represented by the calls it has received, oldest first. *)
Inductive handlerCall :=
  | ResetStatistics
  | AddQuota (identifier : string) (numReceived sizeReceived numProcessed sizeProcessed : N)
  | SetGlobalQuota (numReceived sizeReceived numProcessed sizeProcessed : N).

Definition QuotaStatusHandler := list handlerCall.

(** *** The flood preventer *)

(** type quotaFloodPreventer struct.  [heap] and [nextLoc] are the store of the
    [quota] objects allocated by [putDefaultQuota].  [globalQuota] is a
    pointer that only the flood preventer holds, it is kept by value. *)
Record quotaFloodPreventer := MkQFP {
  cacher : Cacher;
  heap : gmap loc quota;
  nextLoc : loc;
  statusHandlers : list QuotaStatusHandler;
  maxMessagesPerPeer : N;  (* uint32 *)
  maxSizePerPeer : N;      (* uint64 *)
  maxMessages : N;         (* uint32 *)
  maxSize : N;             (* uint64 *)
  globalQuota : quota;
}.

Definition setCacher (qfp : quotaFloodPreventer) (c : Cacher) : quotaFloodPreventer :=
  MkQFP c (heap qfp) (nextLoc qfp) (statusHandlers qfp) (maxMessagesPerPeer qfp)
    (maxSizePerPeer qfp) (maxMessages qfp) (maxSize qfp) (globalQuota qfp).

Definition setHeap (qfp : quotaFloodPreventer) (h : gmap loc quota) (n : loc) : quotaFloodPreventer :=
  MkQFP (cacher qfp) h n (statusHandlers qfp) (maxMessagesPerPeer qfp)
    (maxSizePerPeer qfp) (maxMessages qfp) (maxSize qfp) (globalQuota qfp).

Definition setStatusHandlers (qfp : quotaFloodPreventer) (hs : list QuotaStatusHandler) : quotaFloodPreventer :=
  MkQFP (cacher qfp) (heap qfp) (nextLoc qfp) hs (maxMessagesPerPeer qfp)
    (maxSizePerPeer qfp) (maxMessages qfp) (maxSize qfp) (globalQuota qfp).

Definition setGlobalQuota (qfp : quotaFloodPreventer) (g : quota) : quotaFloodPreventer :=
  MkQFP (cacher qfp) (heap qfp) (nextLoc qfp) (statusHandlers qfp) (maxMessagesPerPeer qfp)
    (maxSizePerPeer qfp) (maxMessages qfp) (maxSize qfp) g.

Inductive error :=
  | ErrNilCacher
  | ErrNilQuotaStatusHandler
  | ErrInvalidValue (field : string) (provided minimum : N).

(** func NewQuotaFloodPreventer.  A nil interface argument is [None]. *)
Definition NewQuotaFloodPreventer
    (cacher : option Cacher)
    (statusHandlers : list (option QuotaStatusHandler))
    (maxMessagesPerPeer maxTotalSizePerPeer maxMessages maxTotalSize : N)
  : error + quotaFloodPreventer :=
  match cacher with
  | None => inl ErrNilCacher
  | Some c =>
    match mapM id statusHandlers with
    | None => inl ErrNilQuotaStatusHandler
    | Some hs =>
      if maxMessagesPerPeer <? minMessages then
        inl (ErrInvalidValue "maxMessagesPerPeer" maxMessagesPerPeer minMessages)
      else if maxTotalSizePerPeer <? minTotalSize then
        inl (ErrInvalidValue "maxTotalSizePerPeer" maxTotalSize minTotalSize)
      else if maxMessages <? minMessages then
        inl (ErrInvalidValue "maxMessages" maxMessagesPerPeer minMessages)
      else if maxTotalSize <? minTotalSize then
        inl (ErrInvalidValue "maxTotalSize" maxTotalSize minTotalSize)
      else
        inr (MkQFP c ∅ 0%nat hs maxMessagesPerPeer maxTotalSizePerPeer
               maxMessages maxTotalSize zeroQuota)
    end
  end.

(** func (qfp *quotaFloodPreventer) putDefaultQuota: a new [quota] object is
    allocated and its pointer is put in the cache. *)
Definition putDefaultQuota (qfp : quotaFloodPreventer) (identifier : string) (size : N)
  : quotaFloodPreventer :=
  let q := Quota initNumMessages size initNumMessages size in
  let l := nextLoc qfp in
  setCacher (setHeap qfp (<[l := q]> (heap qfp)) (S l))
            (Put (cacher qfp) identifier (QuotaPtr l)).

(** q.numReceivedMessages++ ; q.sizeReceivedMessages += size *)
Definition addReceived (q : quota) (size : N) : quota :=
  Quota (uint32 (numReceivedMessages q + 1)) (uint64 (sizeReceivedMessages q + size))
        (numProcessedMessages q) (sizeProcessedMessages q).

(** q.numProcessedMessages++ ; q.sizeProcessedMessages += size *)
Definition addProcessed (q : quota) (size : N) : quota :=
  Quota (numReceivedMessages q) (sizeReceivedMessages q)
        (uint32 (numProcessedMessages q + 1)) (uint64 (sizeProcessedMessages q + size)).

Definition isGlobalQuotaReached (qfp : quotaFloodPreventer) : bool :=
  (maxMessages qfp <? numReceivedMessages (globalQuota qfp))
  || (maxSize qfp <? sizeReceivedMessages (globalQuota qfp)).

Definition isPeerQuotaReached (qfp : quotaFloodPreventer) (q : quota) : bool :=
  (maxMessagesPerPeer qfp <? numReceivedMessages q)
  || (maxSizePerPeer qfp <? sizeReceivedMessages q).

(** func (qfp *quotaFloodPreventer) accumulate.  The increments of [q] are
    writes through the pointer found in the cache: they update the object at
    [l] whether or not [Put] is called afterwards. *)
Definition accumulate (qfp : quotaFloodPreventer) (identifier : string) (size : N)
  : bool * quotaFloodPreventer :=
  if isGlobalQuotaReached qfp then (false, qfp)
  else
    let '(valueQuota, c) := Get (cacher qfp) identifier in
    let qfp := setCacher qfp c in
    match valueQuota with
    | None => (true, putDefaultQuota qfp identifier size)
    | Some OtherValue => (true, putDefaultQuota qfp identifier size)
    | Some (QuotaPtr l) =>
      let q := addReceived (heap qfp !!! l) size in
      let qfp := setHeap qfp (<[l := q]> (heap qfp)) (nextLoc qfp) in
      if isPeerQuotaReached qfp q then (false, qfp)
      else
        let qfp := setCacher qfp (Put (cacher qfp) identifier (QuotaPtr l)) in
        let q := addProcessed q size in
        (true, setHeap qfp (<[l := q]> (heap qfp)) (nextLoc qfp))
    end.

(** func (qfp *quotaFloodPreventer) Accumulate *)
Definition Accumulate (qfp : quotaFloodPreventer) (identifier : string) (size : N)
  : bool * quotaFloodPreventer :=
  accumulate qfp identifier size.

(** func (qfp *quotaFloodPreventer) AccumulateGlobal *)
Definition AccumulateGlobal (qfp : quotaFloodPreventer) (identifier : string) (size : N)
  : bool * quotaFloodPreventer :=
  let qfp := setGlobalQuota qfp (addReceived (globalQuota qfp) size) in
  let '(isQuotaNotReached, qfp) := accumulate qfp identifier size in
  if isQuotaNotReached then
    (true, setGlobalQuota qfp (addProcessed (globalQuota qfp) size))
  else (false, qfp).

(** func (qfp *quotaFloodPreventer) resetStatusHandlers *)
Definition resetStatusHandlers (qfp : quotaFloodPreventer) : quotaFloodPreventer :=
  setStatusHandlers qfp ((λ h, h ++ [ResetStatistics]) <$> statusHandlers qfp).

(** func (qfp *quotaFloodPreventer) addQuota *)
Definition addQuota (qfp : quotaFloodPreventer) (identifier : string)
    (numReceived sizeReceived numProcessed sizeProcessed : N) : quotaFloodPreventer :=
  setStatusHandlers qfp
    ((λ h, h ++ [AddQuota identifier numReceived sizeReceived numProcessed sizeProcessed])
       <$> statusHandlers qfp).

(** func (qfp *quotaFloodPreventer) setGlobalQuota *)
Definition notifyGlobalQuota (qfp : quotaFloodPreventer)
    (numReceived sizeReceived numProcessed sizeProcessed : N) : quotaFloodPreventer :=
  setStatusHandlers qfp
    ((λ h, h ++ [SetGlobalQuota numReceived sizeReceived numProcessed sizeProcessed])
       <$> statusHandlers qfp).

(** The body of the loop of createStatistics for one key. *)
Definition createStatisticsFor (qfp : quotaFloodPreventer) (k : string) : quotaFloodPreventer :=
  let '(val, c) := Get (cacher qfp) k in
  let qfp := setCacher qfp c in
  match val with
  | None => qfp
  | Some OtherValue => qfp
  | Some (QuotaPtr l) =>
    let q := heap qfp !!! l in
    addQuota qfp k (numReceivedMessages q) (sizeReceivedMessages q)
      (numProcessedMessages q) (sizeProcessedMessages q)
  end.

(** func (qfp quotaFloodPreventer) createStatistics *)
Definition createStatistics (qfp : quotaFloodPreventer) : quotaFloodPreventer :=
  let keys := Keys (cacher qfp) in
  let qfp := foldl createStatisticsFor qfp keys in
  let g := globalQuota qfp in
  notifyGlobalQuota qfp (numReceivedMessages g) (sizeReceivedMessages g)
    (numProcessedMessages g) (sizeProcessedMessages g).

(** func (qfp *quotaFloodPreventer) Reset *)
Definition Reset (qfp : quotaFloodPreventer) : quotaFloodPreventer :=
  let qfp := resetStatusHandlers qfp in
  let qfp := createStatistics qfp in
  let qfp := setCacher qfp (Clear (cacher qfp)) in
  setGlobalQuota qfp zeroQuota.

(** *** Sequences of calls *)

Inductive call :=
  | CallAccumulate (identifier : string) (size : N)
  | CallAccumulateGlobal (identifier : string) (size : N)
  | CallReset.

(** One call: the next state and what the call returned ([None] for Reset). *)
Definition step (qfp : quotaFloodPreventer) (c : call) : option bool * quotaFloodPreventer :=
  match c with
  | CallAccumulate p s => let '(b, qfp') := Accumulate qfp p s in (Some b, qfp')
  | CallAccumulateGlobal p s => let '(b, qfp') := AccumulateGlobal qfp p s in (Some b, qfp')
  | CallReset => (None, Reset qfp)
  end.

Fixpoint run (qfp : quotaFloodPreventer) (cs : list call)
  : list (option bool) * quotaFloodPreventer :=
  match cs with
  | [] => ([], qfp)
  | c :: cs' =>
    let '(r, qfp') := step qfp c in
    let '(rs, qfp'') := run qfp' cs' in
    (r :: rs, qfp'')
  end.

(** Accumulate(p, s_1), ..., Accumulate(p, s_n) *)
Definition accumulateAll (qfp : quotaFloodPreventer) (p : string) (sizes : list N)
  : list (option bool) * quotaFloodPreventer :=
  run qfp (CallAccumulate p <$> sizes).

Fixpoint sumSizes (sizes : list N) : N :=
  match sizes with
  | [] => 0
  | s :: sizes' => s + sumSizes sizes'
  end.

(** ** States and predicates used in the statements *)

(** The state left by a call that finds the record at [l] and rejects. *)
Definition afterRejected (qfp : quotaFloodPreventer) (p : string) (l : loc) (s : N)
  : quotaFloodPreventer :=
  setHeap (setCacher qfp (Get (cacher qfp) p).2)
          (<[l := addReceived (heap qfp !!! l) s]> (heap qfp)) (nextLoc qfp).

(** The state left by a call that finds the record at [l] and admits. *)
Definition afterAdmitted (qfp : quotaFloodPreventer) (p : string) (l : loc) (s : N)
  : quotaFloodPreventer :=
  setHeap (setCacher qfp (Put (Get (cacher qfp) p).2 p (QuotaPtr l)))
          (<[l := addProcessed (addReceived (heap qfp !!! l) s) s]> (heap qfp))
          (nextLoc qfp).

(** After [k] calls of total size [total] the record of [p], if the cache
    holds one, has received at most that much, and nothing was charged to the
    global record. *)
Definition peerWithin (qfp : quotaFloodPreventer) (p : string) (k total : N) : Prop :=
  globalQuota qfp = zeroQuota
  ∧ ∀ l, find_entry p (entries (cacher qfp)) = Some (QuotaPtr l) →
         numReceivedMessages (heap qfp !!! l) ≤ k
         ∧ sizeReceivedMessages (heap qfp !!! l) ≤ total.

(** The AddQuota call that createStatistics makes for key [k]. *)
Definition statisticsOf (qfp : quotaFloodPreventer) (k : string) : option handlerCall :=
  match find_entry k (entries (cacher qfp)) with
  | Some (QuotaPtr l) =>
    let q := heap qfp !!! l in
    Some (AddQuota k (numReceivedMessages q) (sizeReceivedMessages q)
            (numProcessedMessages q) (sizeProcessedMessages q))
  | _ => None
  end.

(** Every pointer in the cache was allocated, and no two keys share an
    object.  This holds of a new flood preventer and is kept by every call. *)
Definition wfCache (c : Cacher) (n : loc) : Prop :=
  (∀ k l, find_entry k (entries c) = Some (QuotaPtr l) → (l < n)%nat)
  ∧ (∀ k1 k2 l, find_entry k1 (entries c) = Some (QuotaPtr l) →
                find_entry k2 (entries c) = Some (QuotaPtr l) → k1 = k2).

Definition wf (qfp : quotaFloodPreventer) : Prop := wfCache (cacher qfp) (nextLoc qfp).

(** Reading a field of a state built by the setters. *)
Ltac fields :=
  cbn [cacher heap nextLoc statusHandlers maxMessagesPerPeer maxSizePerPeer
       maxMessages maxSize globalQuota putDefaultQuota setCacher setHeap
       setGlobalQuota setStatusHandlers afterRejected afterAdmitted fst snd] in *.

(** The additions made to the record of [p] by a call of size [s] do not
    wrap around. *)
Definition peerNoWrap (qfp : quotaFloodPreventer) (p : string) (s : N) : Prop :=
  match find_entry p (entries (cacher qfp)) with
  | Some (QuotaPtr l) =>
    numReceivedMessages (heap qfp !!! l) + 1 < 2 ^ 32
    ∧ sizeReceivedMessages (heap qfp !!! l) + s < 2 ^ 64
  | _ => True
  end.

(** The additions made to the global record by AccumulateGlobal do not wrap
    around. *)
Definition globalNoWrap (qfp : quotaFloodPreventer) (s : N) : Prop :=
  numReceivedMessages (globalQuota qfp) + 1 < 2 ^ 32
  ∧ sizeReceivedMessages (globalQuota qfp) + s < 2 ^ 64.

(** The cache still binds [p] after the call if it did before. *)
Definition stays (p : string) (qfp qfp' : quotaFloodPreventer) : Prop :=
  find_entry p (entries (cacher qfp)) ≠ None →
  find_entry p (entries (cacher qfp')) ≠ None.

(** A sequence of calls without Reset, during which the received counters
    of [p] and of the global record do not wrap around and the record of [p]
    is not evicted from the cache. *)
Fixpoint calm (p : string) (qfp : quotaFloodPreventer) (cs : list call) : Prop :=
  match cs with
  | [] => True
  | c :: cs' =>
    match c with
    | CallAccumulate q s => q = p → peerNoWrap qfp p s
    | CallAccumulateGlobal q s => globalNoWrap qfp s ∧ (q = p → peerNoWrap qfp p s)
    | CallReset => False
    end
    ∧ stays p qfp (step qfp c).2
    ∧ calm p (step qfp c).2 cs'
  end.

(** The peer's record is over the per-peer budget. *)
Definition peerOver (p : string) (qfp : quotaFloodPreventer) : Prop :=
  ∃ l, find_entry p (entries (cacher qfp)) = Some (QuotaPtr l)
       ∧ isPeerQuotaReached qfp (heap qfp !!! l) = true.

Definition overBudget (p : string) (qfp : quotaFloodPreventer) : Prop :=
  isGlobalQuotaReached qfp = true ∨ peerOver p qfp.

(** A new flood preventer with a cache of 8 entries, a budget of 10 messages
    and 100 bytes per peer, and a global budget of 10 messages and 1000
    bytes. *)
Definition exampleQFP : quotaFloodPreventer :=
  MkQFP (NewCacher 8) ∅ 0%nat [] 10 100 10 1000 zeroQuota.

(** The same with a cache of one entry. *)
Definition smallCacheQFP : quotaFloodPreventer :=
  MkQFP (NewCacher 1) ∅ 0%nat [] 1 100 10 1000 zeroQuota.

(** The invariant of the data model: in every record reached through the
    cache, what was processed does not exceed what was received. *)
Definition quotaInvariant (qfp : quotaFloodPreventer) : Prop :=
  ∀ k l, find_entry k (entries (cacher qfp)) = Some (QuotaPtr l) →
         numProcessedMessages (heap qfp !!! l) ≤ numReceivedMessages (heap qfp !!! l)
         ∧ sizeProcessedMessages (heap qfp !!! l) ≤ sizeReceivedMessages (heap qfp !!! l).

(** The call does not wrap a received counter of the record it finds. *)
Definition callNoWrap (qfp : quotaFloodPreventer) (c : call) : Prop :=
  match c with
  | CallAccumulate p s => peerNoWrap qfp p s
  | CallAccumulateGlobal p s => peerNoWrap qfp p s
  | CallReset => True
  end.

Fixpoint runNoWrap (qfp : quotaFloodPreventer) (cs : list call) : Prop :=
  match cs with
  | [] => True
  | c :: cs' => callNoWrap qfp c ∧ runNoWrap (step qfp c).2 cs'
  end.

(** The sizes of the AccumulateGlobal calls of [cs] that returned true, [rs]
    being what the calls of [cs] returned. *)
Fixpoint admittedGlobal (cs : list call) (rs : list (option bool)) : list N :=
  match cs, rs with
  | CallAccumulateGlobal _ s :: cs', Some true :: rs' => s :: admittedGlobal cs' rs'
  | _ :: cs', _ :: rs' => admittedGlobal cs' rs'
  | _, _ => []
  end.

(** A sequence of calls without Reset in which no AccumulateGlobal wraps a
    received counter of the global record. *)
Fixpoint globalCalm (qfp : quotaFloodPreventer) (cs : list call) : Prop :=
  match cs with
  | [] => True
  | c :: cs' =>
    match c with
    | CallAccumulate _ _ => True
    | CallAccumulateGlobal _ s => globalNoWrap qfp s
    | CallReset => False
    end
    ∧ globalCalm (step qfp c).2 cs'
  end.

(** The global record has processed no more than it has received, and no
    more than the global budget. *)
Definition globalWithin (qfp : quotaFloodPreventer) : Prop :=
  numProcessedMessages (globalQuota qfp) ≤ numReceivedMessages (globalQuota qfp)
  ∧ sizeProcessedMessages (globalQuota qfp) ≤ sizeReceivedMessages (globalQuota qfp)
  ∧ numProcessedMessages (globalQuota qfp) ≤ maxMessages qfp
  ∧ sizeProcessedMessages (globalQuota qfp) ≤ maxSize qfp.

(** A flood preventer with a global budget of 2 messages, and four calls on
    it. *)
Definition tightGlobalQFP : quotaFloodPreventer :=
  MkQFP (NewCacher 8) ∅ 0%nat [] 10 100 2 1000 zeroQuota.

Definition globalCalls : list call :=
  [CallAccumulateGlobal "P" 5; CallAccumulateGlobal "Q" 7;
   CallAccumulateGlobal "R" 1; CallAccumulate "P" 1].


(** math.MaxUint32, math.MaxUint64 *)
Definition MaxUint32 : N := 2 ^ 32 - 1.
Definition MaxUint64 : N := 2 ^ 64 - 1.

(** func initP2POutputAntiFlood: the flood preventer it creates on the cache
    [antifloodCache] with the configured per-peer limits; it is given no
    status handler. *)
Definition outputFloodPreventer (antifloodCache : option Cacher)
    (peerMaxMessagesPerSecond peerMaxTotalSizePerSecond : N)
  : error + quotaFloodPreventer :=
  NewQuotaFloodPreventer antifloodCache [] peerMaxMessagesPerSecond
    peerMaxTotalSizePerSecond MaxUint32 MaxUint64.

(** The counters of the global record are a uint32 and a uint64. *)
Definition globalInRange (qfp : quotaFloodPreventer) : Prop :=
  numReceivedMessages (globalQuota qfp) < 2 ^ 32
  ∧ sizeReceivedMessages (globalQuota qfp) < 2 ^ 64.

(** The value [v] with its pointer moved by [d] locations. *)
Definition shiftValue (d : nat) (v : value) : value :=
  match v with
  | QuotaPtr l => QuotaPtr (l + d)%nat
  | OtherValue => OtherValue
  end.

Definition shiftEntry (d : nat) (e : string * value) : string * value :=
  (e.1, shiftValue d e.2).

(** [qfp1] is [qfp2] with its quota objects stored [d] locations further:
    the two have the same limits, the same global record, caches of the same
    capacity with the same keys in the same order, and equal records behind
    the pointers.  What else the object store of [qfp1] holds, and the status
    handlers, are left free. *)
Definition mirrors (d : nat) (qfp1 qfp2 : quotaFloodPreventer) : Prop :=
  maxEntries (cacher qfp1) = maxEntries (cacher qfp2)
  ∧ entries (cacher qfp1) = shiftEntry d <$> entries (cacher qfp2)
  ∧ nextLoc qfp1 = (nextLoc qfp2 + d)%nat
  ∧ (∀ l, (l < nextLoc qfp2)%nat → heap qfp1 !!! (l + d)%nat = heap qfp2 !!! l)
  ∧ (∀ k l, (k, QuotaPtr l) ∈ entries (cacher qfp2) → (l < nextLoc qfp2)%nat)
  ∧ maxMessagesPerPeer qfp1 = maxMessagesPerPeer qfp2
  ∧ maxSizePerPeer qfp1 = maxSizePerPeer qfp2
  ∧ maxMessages qfp1 = maxMessages qfp2
  ∧ maxSize qfp1 = maxSize qfp2
  ∧ globalQuota qfp1 = globalQuota qfp2.

(** ** Facts about the cache *)

Lemma find_drop_entry k k' l :
  find_entry k' (drop_entry k l) = if decide (k = k') then None else find_entry k' l.
Proof.
  induction l as [|[k0 v0] l IH]; simpl.
  - by case_decide.
  - repeat (case_decide; simpl; subst); try done; try congruence.
Qed.

Lemma find_take_Some k n l v :
  find_entry k (take n l) = Some v → find_entry k l = Some v.
Proof.
  revert n; induction l as [|[k0 v0] l IH]; intros [|n]; simpl; try done.
  case_decide; eauto.
Qed.

Lemma Get_fst c k : (Get c k).1 = find_entry k (entries c).
Proof. unfold Get. by destruct (find_entry k (entries c)). Qed.

Lemma Get_find c k k' :
  find_entry k' (entries (Get c k).2) = find_entry k' (entries c).
Proof.
  unfold Get. destruct (find_entry k (entries c)) as [v|] eqn:E; simpl; [|done].
  case_decide; subst; [done|].
  rewrite find_drop_entry. by case_decide.
Qed.

Lemma Get_maxEntries c k : maxEntries (Get c k).2 = maxEntries c.
Proof. unfold Get. by destruct (find_entry k (entries c)). Qed.

Lemma Put_find_same c k v :
  (0 < maxEntries c)%nat → find_entry k (entries (Put c k v)) = Some v.
Proof.
  unfold Put; simpl. destruct (maxEntries c); [lia|]. intros _; simpl.
  by case_decide.
Qed.

Lemma Put_find_inv c k v k' v' :
  find_entry k' (entries (Put c k v)) = Some v' →
  (k' = k ∧ v' = v) ∨ (k' ≠ k ∧ find_entry k' (entries c) = Some v').
Proof.
  unfold Put; simpl. intros H%find_take_Some. simpl in H.
  case_decide; subst.
  - left. split; congruence.
  - right. rewrite find_drop_entry in H. case_decide; [done|]. split; congruence.
Qed.

(** A key other than the one put is either still bound to its value or evicted. *)
Lemma Put_find_other c k v k' :
  k' ≠ k →
  find_entry k' (entries (Put c k v)) = find_entry k' (entries c)
  ∨ find_entry k' (entries (Put c k v)) = None.
Proof.
  intros Hne. destruct (find_entry k' (entries (Put c k v))) as [v'|] eqn:E; [|by right].
  left. apply Put_find_inv in E as [[? _]|[_ ->]]; done.
Qed.

(** ** The cases of [accumulate] *)

Lemma accumulate_reached qfp p s :
  isGlobalQuotaReached qfp = true → accumulate qfp p s = (false, qfp).
Proof. unfold accumulate. by intros ->. Qed.

Lemma accumulate_absent qfp p s :
  isGlobalQuotaReached qfp = false →
  (∀ l, find_entry p (entries (cacher qfp)) ≠ Some (QuotaPtr l)) →
  accumulate qfp p s
  = (true, putDefaultQuota (setCacher qfp (Get (cacher qfp) p).2) p s).
Proof.
  unfold accumulate. intros -> Hno.
  destruct (Get (cacher qfp) p) as [o c] eqn:E.
  pose proof (Get_fst (cacher qfp) p) as Hf. rewrite E in Hf; simpl in Hf.
  destruct o as [[l|]|]; simpl; try done.
  by destruct (Hno l).
Qed.

Lemma accumulate_present qfp p s l :
  isGlobalQuotaReached qfp = false →
  find_entry p (entries (cacher qfp)) = Some (QuotaPtr l) →
  accumulate qfp p s
  = if isPeerQuotaReached qfp (addReceived (heap qfp !!! l) s)
    then (false, afterRejected qfp p l s)
    else (true, afterAdmitted qfp p l s).
Proof.
  unfold accumulate. intros -> Hf.
  destruct (Get (cacher qfp) p) as [o c] eqn:E.
  pose proof (Get_fst (cacher qfp) p) as Hf'. rewrite E, Hf in Hf'; simpl in Hf'.
  subst o. unfold afterRejected, afterAdmitted. rewrite E. simpl.
  unfold isPeerQuotaReached; simpl.
  destruct (_ || _); [done|].
  f_equal. unfold setHeap, setCacher; simpl. f_equal.
  by rewrite insert_insert_eq.
Qed.

(** [accumulate] is one of the three cases above. *)
Lemma accumulate_cases qfp p s :
  (isGlobalQuotaReached qfp = true ∧ accumulate qfp p s = (false, qfp))
  ∨ (isGlobalQuotaReached qfp = false
     ∧ (∀ l, find_entry p (entries (cacher qfp)) ≠ Some (QuotaPtr l))
     ∧ accumulate qfp p s
       = (true, putDefaultQuota (setCacher qfp (Get (cacher qfp) p).2) p s))
  ∨ (∃ l, isGlobalQuotaReached qfp = false
     ∧ find_entry p (entries (cacher qfp)) = Some (QuotaPtr l)
     ∧ isPeerQuotaReached qfp (addReceived (heap qfp !!! l) s) = true
     ∧ accumulate qfp p s = (false, afterRejected qfp p l s))
  ∨ (∃ l, isGlobalQuotaReached qfp = false
     ∧ find_entry p (entries (cacher qfp)) = Some (QuotaPtr l)
     ∧ isPeerQuotaReached qfp (addReceived (heap qfp !!! l) s) = false
     ∧ accumulate qfp p s = (true, afterAdmitted qfp p l s)).
Proof.
  destruct (isGlobalQuotaReached qfp) eqn:Hg.
  { left. by rewrite accumulate_reached. }
  right.
  destruct (find_entry p (entries (cacher qfp))) as [[l|]|] eqn:Hf.
  - right. pose proof (accumulate_present qfp p s l Hg Hf) as Ha.
    destruct (isPeerQuotaReached _ _) eqn:Hp; [left|right]; exists l; done.
  - left. split_and!; [done|congruence|]. rewrite accumulate_absent; [done..|congruence].
  - left. split_and!; [done|congruence|]. rewrite accumulate_absent; [done..|congruence].
Qed.

(** ** Calls of one peer within its budget *)

Lemma uint32_le n : uint32 n ≤ n.
Proof. apply N.Div0.mod_le. Qed.

Lemma uint64_le n : uint64 n ≤ n.
Proof. apply N.Div0.mod_le. Qed.

Lemma zero_global_not_reached qfp :
  globalQuota qfp = zeroQuota → isGlobalQuotaReached qfp = false.
Proof.
  unfold isGlobalQuotaReached. intros ->; simpl.
  apply orb_false_iff; split; apply N.ltb_ge; lia.
Qed.

Lemma peerWithin_Accumulate qfp p k total s :
  peerWithin qfp p k total →
  k + 1 ≤ maxMessagesPerPeer qfp →
  total + s ≤ maxSizePerPeer qfp →
  ∃ qfp', Accumulate qfp p s = (true, qfp')
          ∧ peerWithin qfp' p (k + 1) (total + s)
          ∧ maxMessagesPerPeer qfp' = maxMessagesPerPeer qfp
          ∧ maxSizePerPeer qfp' = maxSizePerPeer qfp.
Proof.
  intros [Hg Hin] Hk Ht. unfold Accumulate.
  pose proof (zero_global_not_reached _ Hg) as Hnr.
  destruct (accumulate_cases qfp p s)
    as [[Hr _]|[(_ & Hno & ->)|[(l & _ & Hf & Hp & _)|(l & _ & Hf & Hp & ->)]]].
  - congruence.
  - eexists; split; [done|]. split_and!; try done. split; [done|].
    intros l Hl. simpl in Hl. apply Put_find_inv in Hl as [[_ [= ->]]|[? _]]; [|done].
    simpl. rewrite lookup_total_insert_eq; simpl. unfold initNumMessages. lia.
  - exfalso. destruct (Hin l Hf) as [Hm Hb].
    unfold isPeerQuotaReached in Hp; simpl in Hp.
    apply orb_true_iff in Hp as [Hp|Hp]; apply N.ltb_lt in Hp.
    + pose proof (uint32_le (numReceivedMessages (heap qfp !!! l) + 1)). lia.
    + pose proof (uint64_le (sizeReceivedMessages (heap qfp !!! l) + s)). lia.
  - eexists; split; [done|]. split_and!; try done. split; [done|].
    intros l' Hl. simpl in Hl. apply Put_find_inv in Hl as [[_ [= ->]]|[? _]]; [|done].
    destruct (Hin l Hf) as [Hm Hb].
    simpl. rewrite lookup_total_insert_eq; simpl.
    pose proof (uint32_le (numReceivedMessages (heap qfp !!! l) + 1)).
    pose proof (uint64_le (sizeReceivedMessages (heap qfp !!! l) + s)). lia.
Qed.

Lemma run_cons qfp c cs :
  run qfp (c :: cs)
  = ((step qfp c).1 :: (run (step qfp c).2 cs).1, (run (step qfp c).2 cs).2).
Proof.
  cbn [run]. destruct (step qfp c) as [r q]. cbn [fst snd].
  by destruct (run q cs).
Qed.

Lemma accumulateAll_within p sizes :
  ∀ qfp k total,
    peerWithin qfp p k total →
    k + N.of_nat (length sizes) ≤ maxMessagesPerPeer qfp →
    total + sumSizes sizes ≤ maxSizePerPeer qfp →
    (accumulateAll qfp p sizes).1 = replicate (length sizes) (Some true).
Proof.
  unfold accumulateAll.
  induction sizes as [|s sizes IH]; intros qfp k total Hin Hk Ht; [done|].
  simpl in Hk, Ht.
  destruct (peerWithin_Accumulate qfp p k total s Hin) as (qfp' & Ha & Hin' & Hm & Hs);
    [lia..|].
  rewrite fmap_cons, run_cons. cbn [step fst snd]. rewrite Ha. cbn [fst snd].
  rewrite (IH qfp' (k + 1) (total + s) Hin'); [done|rewrite ?Hm, ?Hs; lia..].
Qed.

Lemma NewQuotaFloodPreventer_fresh cap hs mmp msp mm ms qfp :
  NewQuotaFloodPreventer (Some (NewCacher cap)) hs mmp msp mm ms = inr qfp →
  cacher qfp = NewCacher cap ∧ globalQuota qfp = zeroQuota
  ∧ heap qfp = ∅ ∧ nextLoc qfp = 0%nat
  ∧ maxMessagesPerPeer qfp = mmp ∧ maxSizePerPeer qfp = msp
  ∧ maxMessages qfp = mm ∧ maxSize qfp = ms.
Proof.
  unfold NewQuotaFloodPreventer. intros H.
  destruct (mapM id hs); [|done].
  repeat (case_match; [done|]).
  by injection H as <-.
Qed.

(** C1.  On a freshly constructed flood preventer (new cache, no
    AccumulateGlobal call), a sequence of Accumulate calls of one peer whose
    number is at most the per-peer message budget and whose sizes add up to at
    most the per-peer byte budget is admitted call by call: every call
    returns true. *)
Theorem accumulate_within_budget_all_true
    cap hs mmp msp mm ms qfp (p : string) (sizes : list N) :
  NewQuotaFloodPreventer (Some (NewCacher cap)) hs mmp msp mm ms = inr qfp →
  N.of_nat (length sizes) ≤ mmp →
  sumSizes sizes ≤ msp →
  (accumulateAll qfp p sizes).1 = replicate (length sizes) (Some true).
Proof.
  intros (Hc & Hg & _ & _ & Hm & Hs & _)%NewQuotaFloodPreventer_fresh Hk Ht.
  apply (accumulateAll_within p sizes qfp 0 0).
  - split; [done|]. rewrite Hc. simpl. done.
  - rewrite Hm. lia.
  - rewrite Hs. lia.
Qed.

Lemma accumulate_within_budget_all_true_witness :
  ∃ qfp,
    NewQuotaFloodPreventer (Some (NewCacher 8)) [] 2 100 10 1000 = inr qfp
    ∧ (accumulateAll qfp "P" [40; 40]).1 = [Some true; Some true].
Proof.
  eexists. split; [reflexivity|].
  apply (accumulate_within_budget_all_true 8 [] 2 100 10 1000 _ "P" [40; 40]).
  - reflexivity.
  - simpl; lia.
  - simpl; lia.
Defined.

(** ** Reset *)

Lemma fmap_append_calls (a b : list handlerCall) (hs : list QuotaStatusHandler) :
  (λ h, h ++ b) <$> ((λ h, h ++ a) <$> hs) = (λ h, h ++ (a ++ b)) <$> hs.
Proof.
  rewrite <- list_fmap_compose. apply list_fmap_ext. intros _ h _. simpl.
  by rewrite app_assoc.
Qed.

Lemma createStatisticsFor_spec qfp k :
  let qfp' := createStatisticsFor qfp k in
  statusHandlers qfp'
  = (λ h, h ++ option_list (statisticsOf qfp k)) <$> statusHandlers qfp
  ∧ heap qfp' = heap qfp
  ∧ globalQuota qfp' = globalQuota qfp
  ∧ maxEntries (cacher qfp') = maxEntries (cacher qfp)
  ∧ ∀ k', find_entry k' (entries (cacher qfp')) = find_entry k' (entries (cacher qfp)).
Proof.
  unfold createStatisticsFor, statisticsOf.
  pose proof (Get_fst (cacher qfp) k) as Hf.
  pose proof (Get_find (cacher qfp) k) as Hk.
  pose proof (Get_maxEntries (cacher qfp) k) as Hm.
  destruct (Get (cacher qfp) k) as [o c]. simpl in *. subst o.
  assert (Hid : statusHandlers qfp = (λ h, h ++ []) <$> statusHandlers qfp).
  { rewrite <- (list_fmap_id (statusHandlers qfp)) at 1.
    apply list_fmap_ext. intros _ h _. by rewrite app_nil_r. }
  destruct (find_entry k (entries (cacher qfp))) as [[l|]|]; simpl; done.
Qed.

Lemma statisticsOf_ext qfp qfp' k :
  heap qfp' = heap qfp →
  (∀ k', find_entry k' (entries (cacher qfp')) = find_entry k' (entries (cacher qfp))) →
  statisticsOf qfp' k = statisticsOf qfp k.
Proof. unfold statisticsOf. by intros -> ->. Qed.

Lemma foldl_createStatisticsFor keys :
  ∀ qfp,
    let qfp' := foldl createStatisticsFor qfp keys in
    statusHandlers qfp'
    = (λ h, h ++ omap (statisticsOf qfp) keys) <$> statusHandlers qfp
    ∧ heap qfp' = heap qfp
    ∧ globalQuota qfp' = globalQuota qfp
    ∧ maxEntries (cacher qfp') = maxEntries (cacher qfp).
Proof.
  induction keys as [|k keys IH]; intros qfp; simpl.
  - split_and!; try done.
    rewrite <- (list_fmap_id (statusHandlers qfp)) at 1.
    apply list_fmap_ext. intros _ h _. by rewrite app_nil_r.
  - destruct (createStatisticsFor_spec qfp k) as (Hs & Hh & Hg & Hm & Hf).
    destruct (IH (createStatisticsFor qfp k)) as (Hs' & Hh' & Hg' & Hm').
    split_and!; try congruence.
    assert (omap (statisticsOf (createStatisticsFor qfp k)) keys
            = omap (statisticsOf qfp) keys) as Ho.
    { clear -Hh Hf. induction keys as [|k' keys IH]; [done|].
      cbn [omap list_omap]. fold (omap (statisticsOf qfp) keys).
      fold (omap (statisticsOf (createStatisticsFor qfp k)) keys).
      by rewrite IH, (statisticsOf_ext qfp _ k' Hh Hf). }
    rewrite Ho in Hs'. rewrite Hs', Hs, fmap_append_calls.
    apply list_fmap_ext. intros _ h _. f_equal.
    by destruct (statisticsOf qfp k).
Qed.

(** What Reset does, field by field. *)
Lemma Reset_spec qfp :
  let g := globalQuota qfp in
  cacher (Reset qfp) = NewCacher (maxEntries (cacher qfp))
  ∧ globalQuota (Reset qfp) = zeroQuota
  ∧ statusHandlers (Reset qfp)
    = (λ h, h ++ ResetStatistics
                 :: omap (statisticsOf qfp) (Keys (cacher qfp))
                 ++ [SetGlobalQuota (numReceivedMessages g) (sizeReceivedMessages g)
                       (numProcessedMessages g) (sizeProcessedMessages g)])
      <$> statusHandlers qfp.
Proof.
  unfold Reset, createStatistics.
  set (q1 := resetStatusHandlers qfp).
  destruct (foldl_createStatisticsFor (Keys (cacher q1)) q1) as (Hs & Hh & Hg & Hm).
  change (cacher q1) with (cacher qfp) in *.
  change (globalQuota q1) with (globalQuota qfp) in *.
  assert (omap (statisticsOf q1) (Keys (cacher qfp))
          = omap (statisticsOf qfp) (Keys (cacher qfp))) as Ho by done.
  rewrite Ho in Hs.
  change (statusHandlers q1)
    with ((λ h, h ++ [ResetStatistics]) <$> statusHandlers qfp) in Hs.
  rewrite fmap_append_calls in Hs.
  set (q2 := foldl createStatisticsFor q1 (Keys (cacher qfp))) in *.
  simpl. split_and!; [|done|].
  - unfold Clear, NewCacher. by rewrite Hm.
  - rewrite Hs, Hg, fmap_append_calls.
    apply list_fmap_ext. intros _ h _. done.
Qed.

(** C3.  Reset empties the quota cache, zeroes the global record and calls
    ResetStatistics on every status handler (each handler receives it as the
    first call of the Reset); right after Reset, Accumulate returns true for
    every peer and every size. *)
Theorem Reset_clears_then_admits qfp :
  entries (cacher (Reset qfp)) = []
  ∧ globalQuota (Reset qfp) = zeroQuota
  ∧ Forall2 (λ before after, ∃ calls, after = before ++ ResetStatistics :: calls)
            (statusHandlers qfp) (statusHandlers (Reset qfp))
  ∧ ∀ (p : string) (s : N), (Accumulate (Reset qfp) p s).1 = true.
Proof.
  destruct (Reset_spec qfp) as (Hc & Hg & Hs).
  split_and!.
  - by rewrite Hc.
  - done.
  - rewrite Hs. apply Forall2_fmap_r, Forall_Forall2_diag, Forall_forall.
    intros h _. eauto.
  - intros p s. unfold Accumulate.
    rewrite accumulate_absent; [done| |].
    + by apply zero_global_not_reached.
    + intros l. by rewrite Hc.
Qed.

(** ** The record of a rejected peer *)

(** C10.  When the global budget is not exceeded and Accumulate(p, s)
    returns false, the peer has a record in the cache, and the call has
    incremented (in uint32 and uint64 arithmetic) received_messages by 1 and
    received_bytes by s in that very record, leaving its processed counters
    unchanged, although the record is not put again: the cache is the one left
    by the lookup and still binds p to the same object.  More generally every
    call that finds the record of p increments its received counters, whether
    it is admitted or rejected. *)
Theorem rejected_call_counts_as_received qfp (p : string) (s : N) b qfp' :
  isGlobalQuotaReached qfp = false →
  Accumulate qfp p s = (b, qfp') →
  (b = false →
   ∃ l, find_entry p (entries (cacher qfp)) = Some (QuotaPtr l)
        ∧ cacher qfp' = (Get (cacher qfp) p).2
        ∧ find_entry p (entries (cacher qfp')) = Some (QuotaPtr l)
        ∧ numProcessedMessages (heap qfp' !!! l) = numProcessedMessages (heap qfp !!! l)
        ∧ sizeProcessedMessages (heap qfp' !!! l) = sizeProcessedMessages (heap qfp !!! l))
  ∧ (∀ l, find_entry p (entries (cacher qfp)) = Some (QuotaPtr l) →
          numReceivedMessages (heap qfp' !!! l)
          = uint32 (numReceivedMessages (heap qfp !!! l) + 1)
          ∧ sizeReceivedMessages (heap qfp' !!! l)
            = uint64 (sizeReceivedMessages (heap qfp !!! l) + s)).
Proof.
  unfold Accumulate. intros Hg Ha.
  destruct (accumulate_cases qfp p s)
    as [[Hr _]|[(_ & Hno & E)|[(l & _ & Hf & Hp & E)|(l & _ & Hf & Hp & E)]]];
    [congruence|rewrite E in Ha; injection Ha as <- <-..].
  - split; [done|]. intros l Hl. by destruct (Hno l).
  - split.
    + intros _. exists l. split_and!; try done.
      * simpl. by rewrite Get_find.
      * simpl. by rewrite lookup_total_insert_eq.
      * simpl. by rewrite lookup_total_insert_eq.
    + intros l' Hl. assert (l' = l) as -> by congruence.
      simpl. by rewrite lookup_total_insert_eq.
  - split; [done|]. intros l' Hl. assert (l' = l) as -> by congruence.
    simpl. by rewrite lookup_total_insert_eq.
Qed.

(** ** Well-formed stores *)

Lemma wfCache_Get c n p : wfCache c n → wfCache (Get c p).2 n.
Proof.
  intros [Ha Hi]. split.
  - intros k l. rewrite Get_find. apply Ha.
  - intros k1 k2 l. rewrite !Get_find. apply Hi.
Qed.

Lemma wfCache_Put_fresh c n p : wfCache c n → wfCache (Put c p (QuotaPtr n)) (S n).
Proof.
  intros [Ha Hi]. split.
  - intros k l [[_ [= ->]]|[_ H]]%Put_find_inv; [lia|]. apply Ha in H. lia.
  - intros k1 k2 l [[-> [= ->]]|[? H1]]%Put_find_inv [[-> E]|[? H2]]%Put_find_inv;
      try done.
    + apply Ha in H2. lia.
    + injection E as ->. apply Ha in H1. lia.
    + eauto.
Qed.

Lemma wfCache_Put_same c n p l :
  wfCache c n → find_entry p (entries c) = Some (QuotaPtr l) →
  wfCache (Put c p (QuotaPtr l)) n.
Proof.
  intros [Ha Hi] Hp. split.
  - intros k l' [[_ [= ->]]|[_ H]]%Put_find_inv; eauto.
  - intros k1 k2 l' [[-> [= ->]]|[? H1]]%Put_find_inv [[-> E]|[? H2]]%Put_find_inv;
      try done.
    + symmetry. eauto.
    + injection E as ->. eauto.
    + eauto.
Qed.

Lemma wf_accumulate qfp p s : wf qfp → wf (accumulate qfp p s).2.
Proof.
  unfold wf. intros Hwf.
  destruct (accumulate_cases qfp p s)
    as [[_ ->]|[(_ & _ & ->)|[(l & _ & Hf & _ & ->)|(l & _ & Hf & _ & ->)]]]; simpl.
  - done.
  - by apply wfCache_Put_fresh, wfCache_Get.
  - by apply wfCache_Get.
  - apply wfCache_Put_same; [by apply wfCache_Get|]. by rewrite Get_find.
Qed.

Lemma wf_new cap hs mmp msp mm ms qfp :
  NewQuotaFloodPreventer (Some (NewCacher cap)) hs mmp msp mm ms = inr qfp → wf qfp.
Proof.
  intros (Hc & _)%NewQuotaFloodPreventer_fresh. unfold wf. rewrite Hc.
  split; intros *; done.
Qed.

(** The parts of the state that [AccumulateGlobal] shares with [accumulate]. *)
Lemma AccumulateGlobal_unfold qfp p s :
  let r := accumulate (setGlobalQuota qfp (addReceived (globalQuota qfp) s)) p s in
  (AccumulateGlobal qfp p s).1 = r.1
  ∧ cacher (AccumulateGlobal qfp p s).2 = cacher r.2
  ∧ heap (AccumulateGlobal qfp p s).2 = heap r.2
  ∧ nextLoc (AccumulateGlobal qfp p s).2 = nextLoc r.2
  ∧ maxMessagesPerPeer (AccumulateGlobal qfp p s).2 = maxMessagesPerPeer r.2
  ∧ maxSizePerPeer (AccumulateGlobal qfp p s).2 = maxSizePerPeer r.2
  ∧ maxMessages (AccumulateGlobal qfp p s).2 = maxMessages r.2
  ∧ maxSize (AccumulateGlobal qfp p s).2 = maxSize r.2
  ∧ globalQuota (AccumulateGlobal qfp p s).2
    = if r.1 then addProcessed (globalQuota r.2) s else globalQuota r.2.
Proof.
  unfold AccumulateGlobal.
  destruct (accumulate _ p s) as [[] q]; done.
Qed.

Lemma accumulate_keeps_limits qfp p s :
  let qfp' := (accumulate qfp p s).2 in
  maxMessagesPerPeer qfp' = maxMessagesPerPeer qfp
  ∧ maxSizePerPeer qfp' = maxSizePerPeer qfp
  ∧ maxMessages qfp' = maxMessages qfp
  ∧ maxSize qfp' = maxSize qfp
  ∧ globalQuota qfp' = globalQuota qfp.
Proof.
  destruct (accumulate_cases qfp p s)
    as [[_ ->]|[(_ & _ & ->)|[(l & _ & _ & _ & ->)|(l & _ & _ & _ & ->)]]]; done.
Qed.

Lemma wf_step qfp c : wf qfp → wf (step qfp c).2.
Proof.
  intros Hwf. destruct c as [p s|p s|]; simpl.
  - unfold Accumulate. pose proof (wf_accumulate qfp p s Hwf).
    by destruct (accumulate qfp p s).
  - destruct (AccumulateGlobal_unfold qfp p s) as (_ & Hc & _ & Hn & _).
    destruct (AccumulateGlobal qfp p s) as [b q]. simpl in *.
    unfold wf. rewrite Hc, Hn. by apply wf_accumulate.
  - destruct (Reset_spec qfp) as (Hc & _). unfold wf. rewrite Hc.
    split; intros *; done.
Qed.

Lemma wf_run cs : ∀ qfp, wf qfp → wf (run qfp cs).2.
Proof.
  induction cs as [|c cs IH]; intros qfp Hwf; [done|].
  rewrite run_cons. simpl. by apply IH, wf_step.
Qed.

(** No call changes the capacity of the cache. *)
Lemma maxEntries_accumulate qfp p s :
  maxEntries (cacher (accumulate qfp p s).2) = maxEntries (cacher qfp).
Proof.
  destruct (accumulate_cases qfp p s)
    as [[_ ->]|[(_ & _ & ->)|[(l & _ & _ & _ & ->)|(l & _ & _ & _ & ->)]]];
    simpl; by rewrite ?Get_maxEntries.
Qed.

Lemma maxEntries_step qfp c :
  maxEntries (cacher (step qfp c).2) = maxEntries (cacher qfp).
Proof.
  destruct c as [p s|p s|]; cbn [step].
  - unfold Accumulate. pose proof (maxEntries_accumulate qfp p s).
    by destruct (accumulate qfp p s).
  - destruct (AccumulateGlobal_unfold qfp p s) as (_ & Hc & _).
    destruct (AccumulateGlobal qfp p s) as [b q]. simpl in *.
    rewrite Hc.
    apply (maxEntries_accumulate
             (setGlobalQuota qfp (addReceived (globalQuota qfp) s)) p s).
  - cbn [snd]. by destruct (Reset_spec qfp) as (-> & _).
Qed.

Lemma maxEntries_run cs :
  ∀ qfp, maxEntries (cacher (run qfp cs).2) = maxEntries (cacher qfp).
Proof.
  induction cs as [|c cs IH]; intros qfp; [done|].
  rewrite run_cons. simpl. by rewrite IH, maxEntries_step.
Qed.

(** ** Rejection is sticky *)

Lemma uint32_small n : n < 2 ^ 32 → uint32 n = n.
Proof. apply N.mod_small. Qed.

Lemma uint64_small n : n < 2 ^ 64 → uint64 n = n.
Proof. apply N.mod_small. Qed.

Lemma reached_addReceived mm ms q s :
  (mm <? numReceivedMessages q) || (ms <? sizeReceivedMessages q) = true →
  numReceivedMessages q + 1 < 2 ^ 32 →
  sizeReceivedMessages q + s < 2 ^ 64 →
  (mm <? numReceivedMessages (addReceived q s))
  || (ms <? sizeReceivedMessages (addReceived q s)) = true.
Proof.
  intros H Hm Hs. simpl. rewrite uint32_small, uint64_small by done.
  apply orb_true_iff in H. apply orb_true_iff.
  destruct H as [H|H]; apply N.ltb_lt in H; [left|right]; apply N.ltb_lt; lia.
Qed.

(** A rejected call leaves the state over budget. *)
Lemma rejected_overBudget qfp p s qfp' :
  Accumulate qfp p s = (false, qfp') → overBudget p qfp'.
Proof.
  unfold Accumulate. intros Ha.
  destruct (accumulate_cases qfp p s)
    as [[Hr E]|[(_ & _ & E)|[(l & _ & Hf & Hp & E)|(l & _ & _ & _ & E)]]];
    rewrite E in Ha; try done; injection Ha as <-.
  - by left.
  - right. exists l. split; simpl.
    + by rewrite Get_find.
    + by rewrite lookup_total_insert_eq.
Qed.

(** One call of [accumulate] on a state where [p] is over its budget. *)
Lemma accumulate_peerOver qfp p q s :
  wf qfp → peerOver p qfp →
  (q = p → peerNoWrap qfp p s) →
  stays p qfp (accumulate qfp q s).2 →
  peerOver p (accumulate qfp q s).2 ∧ (q = p → (accumulate qfp q s).1 = false).
Proof.
  intros [Ha Hi] (l & Hl & Ho) Hnw Hst.
  assert (Hsome : find_entry p (entries (cacher qfp)) ≠ None) by congruence.
  specialize (Hst Hsome). unfold peerOver, isPeerQuotaReached in *.
  destruct (accumulate_cases qfp q s)
    as [[_ E]|[(_ & Hno & E)|[(l' & _ & Hf & Hp & E)|(l' & _ & Hf & Hp & E)]]];
    rewrite E in Hst |- *; fields.
  - split; [by exists l|done].
  - assert (q ≠ p) as Hne by (intros ->; by destruct (Hno l)).
    split; [|done]. exists l.
    pose proof (Ha _ _ Hl).
    destruct (Put_find_other (Get (cacher qfp) q).2 q (QuotaPtr (nextLoc qfp)) p)
      as [Hp|Hp]; [done| |done].
    rewrite Hp, Get_find. split; [done|].
    rewrite lookup_total_insert_ne by lia. done.
  - destruct (decide (q = p)) as [->|Hne].
    + assert (l' = l) as -> by congruence.
      split; [|done]. exists l. rewrite Get_find. split; [done|].
      rewrite lookup_total_insert_eq.
      unfold peerNoWrap in Hnw. rewrite Hl in Hnw. destruct (Hnw eq_refl).
      by apply reached_addReceived.
    + split; [|done]. exists l. rewrite Get_find. split; [done|].
      assert (l' ≠ l) by (intros ->; apply Hne; eauto).
      by rewrite lookup_total_insert_ne.
  - destruct (decide (q = p)) as [->|Hne].
    + exfalso. assert (l' = l) as -> by congruence.
      unfold peerNoWrap in Hnw. rewrite Hl in Hnw. destruct (Hnw eq_refl).
      unfold isPeerQuotaReached in Hp.
      rewrite reached_addReceived in Hp; done.
    + split; [|done]. exists l.
      destruct (Put_find_other (Get (cacher qfp) q).2 q (QuotaPtr l') p)
        as [Hp'|Hp']; [done| |done].
      rewrite Hp', Get_find. split; [done|].
      assert (l' ≠ l) by (intros ->; apply Hne; eauto).
      by rewrite lookup_total_insert_ne.
Qed.

(** One call on a state that is over budget for [p]: the state stays over
    budget, and the call returns false if it is a call of [p]. *)
Lemma step_overBudget qfp p c cs :
  wf qfp → overBudget p qfp → calm p qfp (c :: cs) →
  overBudget p (step qfp c).2
  ∧ ∀ s, c = CallAccumulate p s ∨ c = CallAccumulateGlobal p s →
         (step qfp c).1 = Some false.
Proof.
  intros Hwf Hov (Hc & Hst & _).
  destruct c as [q s|q s|]; [| |done].
  - simpl in Hst |- *. unfold Accumulate in *.
    destruct Hov as [Hg|Hp].
    + rewrite accumulate_reached by done. split; [by left|done].
    + destruct (accumulate_peerOver qfp p q s Hwf Hp Hc) as [Hov' Hb].
      { by destruct (accumulate qfp q s). }
      destruct (accumulate qfp q s) as [b qfp']. simpl in *.
      split; [by right|]. intros s' [[= -> ->]|[=]]. by rewrite Hb.
  - destruct Hc as [[Hgm Hgs] Hc].
    destruct (AccumulateGlobal_unfold qfp q s)
      as (Hr & Hcc & Hh & Hn & Hmp & Hsp & Hmm & Hms & Hgq).
    set (qfp0 := setGlobalQuota qfp (addReceived (globalQuota qfp) s)) in *.
    simpl in Hst |- *.
    destruct (AccumulateGlobal qfp q s) as [b qfp'] eqn:Eg. simpl in *.
    destruct Hov as [Hg|Hp].
    + assert (Hg0 : isGlobalQuotaReached qfp0 = true).
      { unfold isGlobalQuotaReached in *.
        change (globalQuota qfp0) with (addReceived (globalQuota qfp) s).
        by apply reached_addReceived. }
      rewrite accumulate_reached in Hr, Hmm, Hms, Hgq by done. fields.
      split; [|intros; by rewrite Hr].
      left. unfold isGlobalQuotaReached in *.
      by rewrite Hmm, Hms, Hgq.
    + destruct (accumulate_peerOver qfp0 p q s) as [Hov' Hb]; try done.
      { unfold stays in *. by rewrite <- Hcc. }
      split.
      * right. destruct Hov' as (l & Hl & Ho). exists l.
        unfold isPeerQuotaReached in *. by rewrite Hcc, Hh, Hmp, Hsp.
      * intros s' [[=]|[= -> ->]]. by rewrite Hr, Hb.
Qed.

(** Along a calm sequence of calls that starts over budget for [p], every
    call of [p] returns false. *)
Lemma calm_run_rejects p cs :
  ∀ qfp, wf qfp → overBudget p qfp → calm p qfp cs →
    ∀ i s, cs !! i = Some (CallAccumulate p s) ∨ cs !! i = Some (CallAccumulateGlobal p s) →
           (run qfp cs).1 !! i = Some (Some false).
Proof.
  induction cs as [|c cs IH]; intros qfp Hwf Hov Hcalm i s Hi.
  { by destruct Hi. }
  destruct (step_overBudget qfp p c cs Hwf Hov Hcalm) as [Hov' Hres].
  rewrite run_cons. cbn [fst].
  destruct i as [|i]; simpl in *.
  - f_equal. apply (Hres s). destruct Hi as [[= ->]|[= ->]]; eauto.
  - apply (IH (step qfp c).2) with (s := s); try done.
    + by apply wf_step.
    + by destruct Hcalm as (_ & _ & ?).
Qed.

(** ** Example states *)

Lemma exampleQFP_new :
  NewQuotaFloodPreventer (Some (NewCacher 8)) [] 10 100 10 1000 = inr exampleQFP.
Proof. reflexivity. Qed.

Lemma smallCacheQFP_new :
  NewQuotaFloodPreventer (Some (NewCacher 1)) [] 1 100 10 1000 = inr smallCacheQFP.
Proof. reflexivity. Qed.

(** Scenario 1 of the spec: budget of 2 messages per peer, three calls. *)
Example scenario_three_calls :
  (accumulateAll (MkQFP (NewCacher 8) ∅ 0%nat [] 2 100 10 1000 zeroQuota)
     "P" [40; 40; 40]).1
  = [Some true; Some true; Some false].
Proof. vm_compute. reflexivity. Qed.

(** C2, as stated, fails.  On a new flood preventer with a budget of 100
    bytes per peer, Accumulate("P", 50), Accumulate("P", 100) and
    Accumulate("P", 2^64 - 150) return true, false and true: the third
    addition wraps received_bytes around to 0.  With a cache of one entry
    and a budget of one message per peer, Accumulate("P", 1) twice, then
    Accumulate("Q", 1), then Accumulate("P", 1) return true, false, true and
    true: the record of P is evicted by the call of Q.  With a global budget
    of 1000 bytes, AccumulateGlobal("Q", 1001) and Accumulate("P", 1) return
    false, AccumulateGlobal("Q", 2^64 - 1001) wraps the global received_bytes
    around to 0, and Accumulate("P", 1) then returns true.  In the three
    sequences a call of P returns true after a call of P returned false,
    without Reset. *)
Lemma rejection_sticky_counterexample :
  (run exampleQFP
     [CallAccumulate "P" 50; CallAccumulate "P" 100;
      CallAccumulate "P" (2 ^ 64 - 150)]).1
  = [Some true; Some false; Some true]
  ∧ (run smallCacheQFP
       [CallAccumulate "P" 1; CallAccumulate "P" 1;
        CallAccumulate "Q" 1; CallAccumulate "P" 1]).1
    = [Some true; Some false; Some true; Some true]
  ∧ (run exampleQFP
       [CallAccumulateGlobal "Q" 1001; CallAccumulate "P" 1;
        CallAccumulateGlobal "Q" (2 ^ 64 - 1001); CallAccumulate "P" 1]).1
    = [Some false; Some false; Some true; Some true].
Proof. split_and!; vm_compute; reflexivity. Qed.

(** C2, amended.  In a state reached from a new flood preventer, once
    Accumulate(p, s) has returned false, every later Accumulate(p, s') returns
    false for as long as no Reset is called, the record of p is not evicted
    from the cache, and neither the received counters of that record nor those
    of the global record wrap around. *)
Theorem rejection_sticky_while_calm
    cap hs mmp msp mm ms qfp0 (pre : list call) (p : string) (s : N) qfp1
    (cs : list call) :
  NewQuotaFloodPreventer (Some (NewCacher cap)) hs mmp msp mm ms = inr qfp0 →
  Accumulate (run qfp0 pre).2 p s = (false, qfp1) →
  calm p qfp1 cs →
  ∀ i s', cs !! i = Some (CallAccumulate p s') →
          (run qfp1 cs).1 !! i = Some (Some false).
Proof.
  intros Hnew Ha Hcalm i s' Hi.
  apply (calm_run_rejects p cs qfp1) with (s := s'); eauto.
  - pose proof (wf_step (run qfp0 pre).2 (CallAccumulate p s)) as Hwf.
    simpl in Hwf. rewrite Ha in Hwf. apply Hwf, wf_run. by eapply wf_new.
  - by eapply rejected_overBudget.
Qed.

Lemma rejection_sticky_while_calm_witness :
  (run (run exampleQFP [CallAccumulate "P" 50; CallAccumulate "P" 100]).2
       [CallAccumulate "Q" 10; CallAccumulate "P" 1]).1 !! 1%nat
  = Some (Some false).
Proof.
  apply (rejection_sticky_while_calm 8 [] 10 100 10 1000 exampleQFP
           [CallAccumulate "P" 50] "P" 100 _
           [CallAccumulate "Q" 10; CallAccumulate "P" 1] exampleQFP_new)
    with (s' := 1).
  - vm_compute. reflexivity.
  - cbn [calm]. split_and!; done.
  - reflexivity.
Defined.

(** C5, as stated, fails.  On a new flood preventer with a budget of 100
    bytes per peer, Accumulate("P", 101) returns true and so does the next
    call Accumulate("P", 2^64 - 101), whose addition wraps received_bytes
    around to 0.  And when the global budget is exceeded, the first call of
    an unknown peer returns false: after eleven AccumulateGlobal("Q", 1),
    Accumulate("P", 1) is rejected. *)
Lemma first_call_counterexample :
  (run exampleQFP [CallAccumulate "P" 101; CallAccumulate "P" (2 ^ 64 - 101)]).1
  = [Some true; Some true]
  ∧ let qfp := (run exampleQFP (replicate 11 (CallAccumulateGlobal "Q" 1))).2 in
    find_entry "P" (entries (cacher qfp)) = None
    ∧ (Accumulate qfp "P" 1).1 = false.
Proof. split; [|split]; vm_compute; reflexivity. Qed.

(** C5, amended.  In a state reached from a new flood preventer whose cache
    holds at least one entry, if the global budget is not exceeded and the
    peer p is not in the cache, Accumulate(p, size) returns true and binds p
    in the cache to a new record {1, size, 1, size}, also when size exceeds
    the per-peer byte budget; in that oversized case every later
    Accumulate(p, s') returns false for as long as no Reset is called, the
    record of p is not evicted, and the received counters of that record and
    of the global record do not wrap around. *)
Theorem first_call_inserts_record
    cap hs mmp msp mm ms qfp0 (pre : list call) (p : string) (size : N) :
  NewQuotaFloodPreventer (Some (NewCacher cap)) hs mmp msp mm ms = inr qfp0 →
  (0 < cap)%nat →
  isGlobalQuotaReached (run qfp0 pre).2 = false →
  find_entry p (entries (cacher (run qfp0 pre).2)) = None →
  ∃ qfp1 l,
    Accumulate (run qfp0 pre).2 p size = (true, qfp1)
    ∧ find_entry p (entries (cacher qfp1)) = Some (QuotaPtr l)
    ∧ heap qfp1 !! l = Some (Quota 1 size 1 size)
    ∧ (maxSizePerPeer (run qfp0 pre).2 < size →
       ∀ cs, calm p qfp1 cs →
             ∀ i s', cs !! i = Some (CallAccumulate p s') →
                     (run qfp1 cs).1 !! i = Some (Some false)).
Proof.
  intros Hnew Hcap Hg Hf.
  assert (Hmax : maxEntries (cacher (run qfp0 pre).2) = cap).
  { rewrite maxEntries_run.
    by apply NewQuotaFloodPreventer_fresh in Hnew as (-> & _). }
  set (qfp := (run qfp0 pre).2) in *.
  assert (Hwf : wf qfp) by (apply wf_run; by eapply wf_new).
  assert (Ha : Accumulate qfp p size
               = (true, putDefaultQuota (setCacher qfp (Get (cacher qfp) p).2) p size)).
  { unfold Accumulate. rewrite accumulate_absent; [done..|]. intros l. by rewrite Hf. }
  eexists _, (nextLoc qfp). split; [exact Ha|].
  assert (Hfind : find_entry p
            (entries (cacher (putDefaultQuota (setCacher qfp (Get (cacher qfp) p).2) p size)))
          = Some (QuotaPtr (nextLoc qfp))).
  { fields. apply Put_find_same. by rewrite Get_maxEntries, Hmax. }
  split_and!.
  - done.
  - fields. by rewrite lookup_insert_eq.
  - intros Hbig cs Hcalm i s' Hi.
    apply (calm_run_rejects p cs _) with (s := s'); eauto.
    + pose proof (wf_step qfp (CallAccumulate p size) Hwf) as Hwf'.
      simpl in Hwf'. by rewrite Ha in Hwf'.
    + right. exists (nextLoc qfp). split; [done|].
      fields. rewrite lookup_total_insert_eq.
      unfold isPeerQuotaReached. fields. cbn [sizeReceivedMessages].
      apply orb_true_iff. right. by apply N.ltb_lt.
Qed.

Lemma first_call_inserts_record_witness :
  (Accumulate exampleQFP "P" 101).1 = true
  ∧ heap (Accumulate exampleQFP "P" 101).2 !! 0%nat = Some (Quota 1 101 1 101)
  ∧ (run (Accumulate exampleQFP "P" 101).2
         [CallAccumulate "Q" 10; CallAccumulate "P" 5]).1 !! 1%nat
    = Some (Some false).
Proof.
  destruct (first_call_inserts_record 8 [] 10 100 10 1000 exampleQFP [] "P" 101
              exampleQFP_new) as (qfp1 & l & Ha & Hf & Hh & Hsticky);
    [lia|reflexivity|reflexivity|].
  cbn [run snd] in Ha.
  assert (qfp1 = (Accumulate exampleQFP "P" 101).2) as -> by (by rewrite Ha).
  assert (l = 0%nat) as -> by (vm_compute in Hf; congruence).
  split; [by rewrite Ha|]. split; [exact Hh|].
  apply (Hsticky ltac:(simpl; lia) [CallAccumulate "Q" 10; CallAccumulate "P" 5])
    with (s' := 5); [|reflexivity].
  cbn [calm]. split_and!; done.
Defined.

(** ** Received and processed counters *)

Lemma quotaInvariant_accumulate qfp p s :
  quotaInvariant qfp → peerNoWrap qfp p s → quotaInvariant (accumulate qfp p s).2.
Proof.
  intros Hinv Hnw k l'.
  destruct (accumulate_cases qfp p s)
    as [[_ ->]|[(_ & _ & ->)|[(l & _ & Hf & _ & ->)|(l & _ & Hf & _ & ->)]]]; fields.
  - apply Hinv.
  - intros Hk. destruct (decide (l' = nextLoc qfp)) as [->|Hne].
    + rewrite lookup_total_insert_eq. simpl. lia.
    + rewrite lookup_total_insert_ne by done.
      apply Put_find_inv in Hk as [[_ [= ->]]|[_ Hk]]; [done|].
      rewrite Get_find in Hk. eauto.
  - rewrite Get_find. intros Hk.
    unfold peerNoWrap in Hnw. rewrite Hf in Hnw. destruct Hnw as [Hm Hs].
    destruct (Hinv _ _ Hf) as [Hpm Hps].
    destruct (decide (l' = l)) as [->|Hne].
    + rewrite lookup_total_insert_eq. simpl.
      rewrite uint32_small, uint64_small by done. lia.
    + rewrite lookup_total_insert_ne by done. eauto.
  - intros Hk.
    unfold peerNoWrap in Hnw. rewrite Hf in Hnw. destruct Hnw as [Hm Hs].
    destruct (Hinv _ _ Hf) as [Hpm Hps].
    destruct (decide (l' = l)) as [->|Hne].
    + rewrite lookup_total_insert_eq. simpl.
      rewrite (uint32_small (numReceivedMessages (heap qfp !!! l) + 1)),
        (uint64_small (sizeReceivedMessages (heap qfp !!! l) + s)) by done.
      pose proof (uint32_le (numProcessedMessages (heap qfp !!! l) + 1)).
      pose proof (uint64_le (sizeProcessedMessages (heap qfp !!! l) + s)). lia.
    + rewrite lookup_total_insert_ne by done.
      apply Put_find_inv in Hk as [[_ [= ->]]|[_ Hk]]; [done|].
      rewrite Get_find in Hk. eauto.
Qed.

Lemma quotaInvariant_step qfp c :
  quotaInvariant qfp → callNoWrap qfp c → quotaInvariant (step qfp c).2.
Proof.
  intros Hinv Hnw. destruct c as [p s|p s|]; simpl.
  - unfold Accumulate. pose proof (quotaInvariant_accumulate qfp p s Hinv Hnw).
    by destruct (accumulate qfp p s).
  - destruct (AccumulateGlobal_unfold qfp p s) as (_ & Hc & Hh & _).
    destruct (AccumulateGlobal qfp p s) as [b q]. simpl in *.
    unfold quotaInvariant. rewrite Hc, Hh.
    by apply (quotaInvariant_accumulate
                (setGlobalQuota qfp (addReceived (globalQuota qfp) s)) p s).
  - destruct (Reset_spec qfp) as (Hc & _).
    unfold quotaInvariant. rewrite Hc. intros k l; done.
Qed.

Lemma quotaInvariant_run cs :
  ∀ qfp, quotaInvariant qfp → runNoWrap qfp cs → quotaInvariant (run qfp cs).2.
Proof.
  induction cs as [|c cs IH]; intros qfp Hinv Hnw; [done|].
  destruct Hnw as [Hc Hcs]. rewrite run_cons. simpl.
  by apply IH; [apply quotaInvariant_step|].
Qed.

(** C4, as stated, fails.  On a new flood preventer with a budget of 100
    bytes per peer, after Accumulate("P", 50) (admitted) and
    Accumulate("P", 100) (rejected) the record of P is {2, 150, 1, 50} and the
    invariant holds; Accumulate("P", 2^64 - 150) wraps received_bytes around
    to 0, is admitted, and leaves the record {3, 0, 2, 2^64 - 100}, whose
    processed_bytes exceed its received_bytes. *)
Lemma received_ge_processed_counterexample :
  let qfp := (run exampleQFP [CallAccumulate "P" 50; CallAccumulate "P" 100]).2 in
  let qfp' := (Accumulate qfp "P" (2 ^ 64 - 150)).2 in
  quotaInvariant qfp
  ∧ find_entry "P" (entries (cacher qfp')) = Some (QuotaPtr 0%nat)
  ∧ heap qfp' !!! 0%nat = Quota 3 0 2 (2 ^ 64 - 100)
  ∧ ¬ quotaInvariant qfp'.
Proof.
  split_and!.
  - apply (quotaInvariant_run _ exampleQFP).
    + intros k l; done.
    + vm_compute. repeat split.
  - vm_compute. reflexivity.
  - vm_compute. reflexivity.
  - intros H. destruct (H "P" 0%nat) as [_ Hs]; [vm_compute; reflexivity|].
    vm_compute in Hs. by apply Hs.
Qed.

(** C4, amended.  In every state reached from a new flood preventer by
    calls none of which wraps a received counter of the record it finds, every
    record in the cache has received_messages ≥ processed_messages and
    received_bytes ≥ processed_bytes; and the invariant is preserved by every
    Accumulate, AccumulateGlobal and Reset that does not wrap a received
    counter of the record it finds. *)
Theorem received_ge_processed_without_wrap :
  (∀ cap hs mmp msp mm ms qfp0 (cs : list call),
      NewQuotaFloodPreventer (Some (NewCacher cap)) hs mmp msp mm ms = inr qfp0 →
      runNoWrap qfp0 cs → quotaInvariant (run qfp0 cs).2)
  ∧ (∀ qfp (c : call),
        quotaInvariant qfp → callNoWrap qfp c → quotaInvariant (step qfp c).2).
Proof.
  split.
  - intros * (Hc & _)%NewQuotaFloodPreventer_fresh Hnw.
    apply quotaInvariant_run; [|done].
    unfold quotaInvariant. rewrite Hc. intros k l; done.
  - apply quotaInvariant_step.
Qed.

Lemma received_ge_processed_without_wrap_witness :
  quotaInvariant
    (run exampleQFP [CallAccumulate "P" 50; CallAccumulate "P" 100; CallReset;
                     CallAccumulateGlobal "Q" 7]).2.
Proof.
  apply (proj1 received_ge_processed_without_wrap 8%nat [] 10 100 10 1000 exampleQFP
           [CallAccumulate "P" 50; CallAccumulate "P" 100; CallReset;
            CallAccumulateGlobal "Q" 7] exampleQFP_new).
  vm_compute. repeat split.
Defined.

Lemma rejected_call_counts_as_received_witness :
  let qfp := (run exampleQFP [CallAccumulate "P" 50]).2 in
  let qfp' := (Accumulate qfp "P" 100).2 in
  (Accumulate qfp "P" 100).1 = false
  ∧ heap qfp !!! 0%nat = Quota 1 50 1 50
  ∧ heap qfp' !!! 0%nat = Quota 2 150 1 50
  ∧ ((false = false →
      ∃ l, find_entry "P" (entries (cacher qfp)) = Some (QuotaPtr l)
           ∧ cacher qfp' = (Get (cacher qfp) "P").2
           ∧ find_entry "P" (entries (cacher qfp')) = Some (QuotaPtr l)
           ∧ numProcessedMessages (heap qfp' !!! l) = numProcessedMessages (heap qfp !!! l)
           ∧ sizeProcessedMessages (heap qfp' !!! l) = sizeProcessedMessages (heap qfp !!! l))
     ∧ (∀ l, find_entry "P" (entries (cacher qfp)) = Some (QuotaPtr l) →
             numReceivedMessages (heap qfp' !!! l)
             = uint32 (numReceivedMessages (heap qfp !!! l) + 1)
             ∧ sizeReceivedMessages (heap qfp' !!! l)
               = uint64 (sizeReceivedMessages (heap qfp !!! l) + 100))).
Proof.
  intros qfp qfp'.
  split; [vm_compute; reflexivity|].
  split; [vm_compute; reflexivity|].
  split; [vm_compute; reflexivity|].
  apply (rejected_call_counts_as_received qfp "P" 100 false qfp').
  - vm_compute. reflexivity.
  - vm_compute. reflexivity.
Defined.

(** ** The constructor *)

(** X1.  NewQuotaFloodPreventer returns a flood preventer exactly when the
    cacher and every status handler are non-nil and the four limits are at
    least 1; the flood preventer then holds the arguments, a zero global
    record and no quota object.  A nil cacher is answered by ErrNilCacher
    whatever the other arguments are, and with a cacher a nil status handler
    is answered by ErrNilQuotaStatusHandler whatever the limits are. *)
Theorem NewQuotaFloodPreventer_succeeds_iff
    (c : option Cacher) (hs : list (option QuotaStatusHandler)) (mmp msp mm ms : N) :
  ((∃ qfp, NewQuotaFloodPreventer c hs mmp msp mm ms = inr qfp)
   ↔ is_Some c ∧ Forall is_Some hs ∧ 1 ≤ mmp ∧ 1 ≤ msp ∧ 1 ≤ mm ∧ 1 ≤ ms)
  ∧ (∀ qfp, NewQuotaFloodPreventer c hs mmp msp mm ms = inr qfp →
       Some (cacher qfp) = c
       ∧ Some <$> statusHandlers qfp = hs
       ∧ maxMessagesPerPeer qfp = mmp ∧ maxSizePerPeer qfp = msp
       ∧ maxMessages qfp = mm ∧ maxSize qfp = ms
       ∧ globalQuota qfp = zeroQuota ∧ heap qfp = ∅)
  ∧ (c = None → NewQuotaFloodPreventer c hs mmp msp mm ms = inl ErrNilCacher)
  ∧ (is_Some c → None ∈ hs →
     NewQuotaFloodPreventer c hs mmp msp mm ms = inl ErrNilQuotaStatusHandler).
Proof.
  assert (Hhs : ∀ hs', mapM id hs = Some hs' → Some <$> hs' = hs).
  { intros hs' H%mapM_Some. induction H as [|x y l k Hx _ IH]; [done|].
    rewrite fmap_cons, IH. simpl in Hx. by subst. }
  assert (Hall : is_Some (mapM id hs) ↔ Forall is_Some hs) by apply mapM_is_Some.
  unfold NewQuotaFloodPreventer, minMessages, minTotalSize.
  split_and!.
  - split.
    + intros [qfp H]. destruct c as [c'|]; [|done].
      destruct (mapM id hs) as [hs'|] eqn:E; [|done].
      repeat (match type of H with
              | context [?a <? ?b] => destruct (N.ltb_spec a b); [done|]
              end).
      split_and!; eauto. by apply Hall.
    + intros ([c' ->] & [hs' ->]%Hall & ? & ? & ? & ?).
      repeat (match goal with
              | |- context [?a <? ?b] => destruct (N.ltb_spec a b); [lia|]
              end).
      eauto.
  - intros qfp H. destruct c as [c'|]; [|done].
    destruct (mapM id hs) as [hs'|] eqn:E; [|done].
    repeat (match type of H with
            | context [?a <? ?b] => destruct (N.ltb_spec a b); [done|]
            end).
    injection H as <-. simpl. split_and!; try done. by apply Hhs.
  - by intros ->.
  - intros [c' ->] Hin. destruct (mapM id hs) as [hs'|] eqn:E; [|done].
    exfalso. assert (Forall is_Some hs) as Hf by (apply Hall; eauto).
    rewrite Forall_forall in Hf. by destruct (Hf _ Hin).
Qed.

(** ** The global record *)

(** X2.  Accumulate reads the global record but does not write it: the global
    record, the four limits and the status handlers are the same after the
    call. *)
Theorem Accumulate_keeps_global_record qfp (p : string) (s : N) :
  globalQuota (Accumulate qfp p s).2 = globalQuota qfp
  ∧ maxMessagesPerPeer (Accumulate qfp p s).2 = maxMessagesPerPeer qfp
  ∧ maxSizePerPeer (Accumulate qfp p s).2 = maxSizePerPeer qfp
  ∧ maxMessages (Accumulate qfp p s).2 = maxMessages qfp
  ∧ maxSize (Accumulate qfp p s).2 = maxSize qfp
  ∧ statusHandlers (Accumulate qfp p s).2 = statusHandlers qfp.
Proof.
  unfold Accumulate.
  destruct (accumulate_cases qfp p s)
    as [[_ ->]|[(_ & _ & ->)|[(l & _ & _ & _ & ->)|(l & _ & _ & _ & ->)]]]; done.
Qed.

(** X3.  AccumulateGlobal always adds the message to the received counters of the
    global record (in uint32 and uint64 arithmetic), gives the verdict of
    Accumulate against the record so increased, and adds the message to the
    processed counters exactly when the verdict is true.  In particular the
    call that takes the global record over its budget is itself rejected, and
    then neither the cache nor any quota object changes. *)
Theorem AccumulateGlobal_accounting qfp (p : string) (s : N) :
  let g := globalQuota qfp in
  let counted := setGlobalQuota qfp (addReceived g s) in
  let verdict := (AccumulateGlobal qfp p s).1 in
  let qfp' := (AccumulateGlobal qfp p s).2 in
  verdict = (Accumulate counted p s).1
  ∧ numReceivedMessages (globalQuota qfp') = uint32 (numReceivedMessages g + 1)
  ∧ sizeReceivedMessages (globalQuota qfp') = uint64 (sizeReceivedMessages g + s)
  ∧ numProcessedMessages (globalQuota qfp')
    = (if verdict then uint32 (numProcessedMessages g + 1) else numProcessedMessages g)
  ∧ sizeProcessedMessages (globalQuota qfp')
    = (if verdict then uint64 (sizeProcessedMessages g + s) else sizeProcessedMessages g)
  ∧ (isGlobalQuotaReached counted = true →
     verdict = false ∧ cacher qfp' = cacher qfp ∧ heap qfp' = heap qfp).
Proof.
  cbv zeta.
  destruct (AccumulateGlobal_unfold qfp p s) as (Hr & Hc & Hh & _ & _ & _ & _ & _ & Hg).
  destruct (accumulate_keeps_limits
              (setGlobalQuota qfp (addReceived (globalQuota qfp) s)) p s)
    as (_ & _ & _ & _ & Hgq).
  rewrite Hgq in Hg. unfold Accumulate. rewrite Hr, Hg.
  split; [done|].
  destruct (accumulate _ p s).1 eqn:E; (split_and!; [done..|]).
  - intros Hreached. rewrite accumulate_reached in E by done. done.
  - intros Hreached. rewrite Hc, Hh. rewrite accumulate_reached by done. done.
Qed.

Lemma accumulate_true_open qfp p s :
  (accumulate qfp p s).1 = true → isGlobalQuotaReached qfp = false.
Proof.
  destruct (accumulate_cases qfp p s)
    as [[_ ->]|[(? & _)|[(l & ? & _)|(l & ? & _)]]]; done.
Qed.

Lemma open_within mm ms q :
  (mm <? numReceivedMessages q) || (ms <? sizeReceivedMessages q) = false →
  numReceivedMessages q ≤ mm ∧ sizeReceivedMessages q ≤ ms.
Proof.
  intros [H1 H2]%orb_false_iff. apply N.ltb_ge in H1, H2. done.
Qed.

(** One call of a calm sequence: the global counters after it. *)
Lemma globalWithin_step qfp c cs :
  globalWithin qfp → globalCalm qfp (c :: cs) →
  let g := globalQuota qfp in
  let g' := globalQuota (step qfp c).2 in
  let adm := admittedGlobal [c] [(step qfp c).1] in
  globalWithin (step qfp c).2
  ∧ maxMessages (step qfp c).2 = maxMessages qfp
  ∧ maxSize (step qfp c).2 = maxSize qfp
  ∧ numProcessedMessages g' = numProcessedMessages g + N.of_nat (length adm)
  ∧ sizeProcessedMessages g' = sizeProcessedMessages g + sumSizes adm.
Proof.
  intros (Hpm & Hpb & Hmm & Hms) [Hc _]. cbv zeta.
  destruct c as [p s|p s|]; [| |done].
  - cbn [step]. unfold Accumulate.
    destruct (accumulate_keeps_limits qfp p s) as (_ & _ & Hm & Hs & Hg).
    destruct (accumulate qfp p s) as [b qfp']. cbn [fst snd] in *.
    unfold globalWithin. rewrite Hm, Hs, Hg. simpl.
    split_and!; try done; lia.
  - destruct Hc as [Hnm Hns].
    destruct (AccumulateGlobal_unfold qfp p s)
      as (Hr & _ & _ & _ & _ & _ & Hm & Hs & Hg).
    set (counted := setGlobalQuota qfp (addReceived (globalQuota qfp) s)) in *.
    destruct (accumulate_keeps_limits counted p s) as (_ & _ & Hm' & Hs' & Hg').
    pose proof (accumulate_true_open counted p s) as Hopen.
    cbn [step]. destruct (AccumulateGlobal qfp p s) as [b qfp']. cbn [fst snd] in *.
    rewrite Hm', Hs' in *. rewrite Hg' in Hg. rewrite <- Hr in *.
    unfold globalWithin. rewrite Hm, Hs, Hg.
    change (globalQuota counted) with (addReceived (globalQuota qfp) s).
    change (maxMessages counted) with (maxMessages qfp).
    change (maxSize counted) with (maxSize qfp).
    destruct b; simpl.
    + specialize (Hopen eq_refl). apply open_within in Hopen as [Hom Hos].
      simpl in Hom, Hos. rewrite uint32_small in Hom by done.
      rewrite uint64_small in Hos by done.
      rewrite (uint32_small (numReceivedMessages _ + 1)) by done.
      rewrite (uint64_small (sizeReceivedMessages _ + s)) by done.
      rewrite (uint32_small (numProcessedMessages _ + 1)) by lia.
      rewrite (uint64_small (sizeProcessedMessages _ + s)) by lia.
      split_and!; try done; lia.
    + rewrite uint32_small, uint64_small by done. split_and!; try done; lia.
Qed.

Lemma admittedGlobal_cons c r cs rs :
  admittedGlobal (c :: cs) (r :: rs) = admittedGlobal [c] [r] ++ admittedGlobal cs rs.
Proof. destruct c as [| |], r as [[]|]; done. Qed.

Lemma sumSizes_app l1 l2 : sumSizes (l1 ++ l2) = sumSizes l1 + sumSizes l2.
Proof. induction l1 as [|x l1 IH]; simpl; lia. Qed.

Lemma globalWithin_run cs :
  ∀ qfp, globalWithin qfp → globalCalm qfp cs →
    let adm := admittedGlobal cs (run qfp cs).1 in
    globalWithin (run qfp cs).2
    ∧ maxMessages (run qfp cs).2 = maxMessages qfp
    ∧ maxSize (run qfp cs).2 = maxSize qfp
    ∧ numProcessedMessages (globalQuota (run qfp cs).2)
      = numProcessedMessages (globalQuota qfp) + N.of_nat (length adm)
    ∧ sizeProcessedMessages (globalQuota (run qfp cs).2)
      = sizeProcessedMessages (globalQuota qfp) + sumSizes adm.
Proof.
  induction cs as [|c cs IH]; intros qfp Hw Hcalm; cbv zeta.
  { simpl. split_and!; try done; lia. }
  destruct (globalWithin_step qfp c cs Hw Hcalm) as (Hw' & Hm & Hs & Hpm & Hpb).
  destruct Hcalm as [_ Hcalm].
  destruct (IH _ Hw' Hcalm) as (Hw'' & Hm' & Hs' & Hpm' & Hpb').
  rewrite run_cons. cbn [fst snd].
  rewrite admittedGlobal_cons, length_app, sumSizes_app.
  split_and!; try done; try congruence; lia.
Qed.

(** X4.  Between two resets the global budget is never exceeded by what
    AccumulateGlobal admits.  From a state whose global record is zero (a new
    flood preventer, or one that was just reset) and along calls that do not
    wrap the received counters of the global record, the number of
    AccumulateGlobal calls that return true is at most maxMessages, their
    sizes add up to at most maxSize, and the processed counters of the global
    record are exactly that number and that sum. *)
Theorem global_budget_never_exceeded qfp (cs : list call) :
  globalQuota qfp = zeroQuota →
  globalCalm qfp cs →
  let adm := admittedGlobal cs (run qfp cs).1 in
  N.of_nat (length adm) ≤ maxMessages qfp
  ∧ sumSizes adm ≤ maxSize qfp
  ∧ numProcessedMessages (globalQuota (run qfp cs).2) = N.of_nat (length adm)
  ∧ sizeProcessedMessages (globalQuota (run qfp cs).2) = sumSizes adm.
Proof.
  intros Hz Hcalm. cbv zeta.
  assert (Hw : globalWithin qfp).
  { unfold globalWithin. rewrite Hz. simpl. split_and!; lia. }
  destruct (globalWithin_run cs qfp Hw Hcalm) as ((_ & _ & Hm & Hs) & Hmm & Hms & Hpm & Hpb).
  rewrite Hz in Hpm, Hpb. simpl in Hpm, Hpb.
  rewrite Hmm, Hpm in Hm. rewrite Hms, Hpb in Hs.
  split_and!; done.
Qed.

Lemma global_budget_never_exceeded_witness :
  (run tightGlobalQFP globalCalls).1 = [Some true; Some true; Some false; Some false]
  ∧ N.of_nat (length (admittedGlobal globalCalls (run tightGlobalQFP globalCalls).1)) ≤ 2
  ∧ sumSizes (admittedGlobal globalCalls (run tightGlobalQFP globalCalls).1) ≤ 1000.
Proof.
  split; [vm_compute; reflexivity|].
  destruct (global_budget_never_exceeded tightGlobalQFP globalCalls) as (Hn & Hs & _).
  - reflexivity.
  - cbn [globalCalm globalCalls]. unfold globalNoWrap.
    split_and!; try done; vm_compute; done.
  - split; [exact Hn|exact Hs].
Defined.

(** ** The budget of a peer *)

Lemma createStatisticsFor_limits qfp k :
  let qfp' := createStatisticsFor qfp k in
  maxMessagesPerPeer qfp' = maxMessagesPerPeer qfp
  ∧ maxSizePerPeer qfp' = maxSizePerPeer qfp
  ∧ maxMessages qfp' = maxMessages qfp
  ∧ maxSize qfp' = maxSize qfp.
Proof.
  unfold createStatisticsFor.
  destruct (Get (cacher qfp) k) as [[[l|]|] c]; done.
Qed.

Lemma foldl_createStatisticsFor_limits keys :
  ∀ qfp,
    let qfp' := foldl createStatisticsFor qfp keys in
    maxMessagesPerPeer qfp' = maxMessagesPerPeer qfp
    ∧ maxSizePerPeer qfp' = maxSizePerPeer qfp
    ∧ maxMessages qfp' = maxMessages qfp
    ∧ maxSize qfp' = maxSize qfp.
Proof.
  induction keys as [|k keys IH]; intros qfp; [done|].
  cbn [foldl].
  destruct (createStatisticsFor_limits qfp k) as (H1 & H2 & H3 & H4).
  destruct (IH (createStatisticsFor qfp k)) as (H1' & H2' & H3' & H4').
  cbv zeta. split_and!; congruence.
Qed.

Lemma Reset_keeps_limits qfp :
  maxMessagesPerPeer (Reset qfp) = maxMessagesPerPeer qfp
  ∧ maxSizePerPeer (Reset qfp) = maxSizePerPeer qfp
  ∧ maxMessages (Reset qfp) = maxMessages qfp
  ∧ maxSize (Reset qfp) = maxSize qfp.
Proof.
  unfold Reset, createStatistics.
  set (q1 := resetStatusHandlers qfp).
  destruct (foldl_createStatisticsFor_limits (Keys (cacher q1)) q1) as (H1 & H2 & H3 & H4).
  cbv zeta in *. fields. unfold notifyGlobalQuota. fields. done.
Qed.

Lemma limits_step qfp c :
  maxMessagesPerPeer (step qfp c).2 = maxMessagesPerPeer qfp
  ∧ maxSizePerPeer (step qfp c).2 = maxSizePerPeer qfp
  ∧ maxMessages (step qfp c).2 = maxMessages qfp
  ∧ maxSize (step qfp c).2 = maxSize qfp.
Proof.
  destruct c as [p s|p s|]; cbn [step].
  - unfold Accumulate.
    destruct (accumulate_keeps_limits qfp p s) as (H1 & H2 & H3 & H4 & _).
    by destruct (accumulate qfp p s).
  - destruct (AccumulateGlobal_unfold qfp p s)
      as (_ & _ & _ & _ & H1 & H2 & H3 & H4 & _).
    destruct (accumulate_keeps_limits
                (setGlobalQuota qfp (addReceived (globalQuota qfp) s)) p s)
      as (H1' & H2' & H3' & H4' & _).
    destruct (AccumulateGlobal qfp p s) as [b q]. cbn [fst snd] in *.
    rewrite H1, H2, H3, H4, H1', H2', H3', H4'. done.
  - cbn [snd]. apply Reset_keeps_limits.
Qed.

Lemma limits_run cs :
  ∀ qfp,
    maxMessagesPerPeer (run qfp cs).2 = maxMessagesPerPeer qfp
    ∧ maxSizePerPeer (run qfp cs).2 = maxSizePerPeer qfp
    ∧ maxMessages (run qfp cs).2 = maxMessages qfp
    ∧ maxSize (run qfp cs).2 = maxSize qfp.
Proof.
  induction cs as [|c cs IH]; intros qfp; [done|].
  rewrite run_cons. cbn [snd].
  destruct (limits_step qfp c) as (H1 & H2 & H3 & H4).
  destruct (IH (step qfp c).2) as (H1' & H2' & H3' & H4').
  split_and!; congruence.
Qed.






(** ** What Reset reports *)

Lemma elem_of_Keys_find c k :
  k ∈ Keys c ↔ find_entry k (entries c) ≠ None.
Proof.
  unfold Keys. generalize (entries c). intros es.
  induction es as [|[k' v] es IH]; simpl.
  - split; [by intros ?%elem_of_nil|done].
  - rewrite elem_of_cons. destruct (decide (k' = k)) as [->|Hne].
    + split; [done|by left].
    + rewrite <- IH. split; [intros [?|?]; [congruence|done]|by right].
Qed.

Lemma omap_length_le {A B} (f : A → option B) (l : list A) :
  (length (omap f l) ≤ length l)%nat.
Proof.
  induction l as [|x l IH]; [done|].
  cbn [omap list_omap]. fold (omap f l). destruct (f x); simpl; lia.
Qed.

(** X6.  Reset tells every status handler what it clears.  Each handler
    receives, after what it had received before, ResetStatistics, then
    AddQuota calls, then one SetGlobalQuota with the four counters of the
    global record as they were before the reset.  The AddQuota calls are one
    per key of the cache that is bound to a quota record, in the order of
    Keys, with the four counters of that record: AddQuota(k, a, b, c, d) is
    among them exactly when the cache binds k to a record whose counters are
    a, b, c, d.  The limits are left as they were. *)
Theorem Reset_reports_cached_records qfp :
  ∃ stats : list handlerCall,
    statusHandlers (Reset qfp)
    = (λ h, h ++ ResetStatistics :: stats
              ++ [SetGlobalQuota (numReceivedMessages (globalQuota qfp))
                    (sizeReceivedMessages (globalQuota qfp))
                    (numProcessedMessages (globalQuota qfp))
                    (sizeProcessedMessages (globalQuota qfp))])
      <$> statusHandlers qfp
    ∧ stats = omap (statisticsOf qfp) (Keys (cacher qfp))
    ∧ (∀ k a b c d,
         AddQuota k a b c d ∈ stats
         ↔ ∃ l, find_entry k (entries (cacher qfp)) = Some (QuotaPtr l)
                ∧ heap qfp !!! l = Quota a b c d)
    ∧ (∀ call, call ∈ stats → ∃ k a b c d, call = AddQuota k a b c d)
    ∧ (length stats ≤ length (entries (cacher qfp)))%nat
    ∧ maxMessagesPerPeer (Reset qfp) = maxMessagesPerPeer qfp
    ∧ maxSizePerPeer (Reset qfp) = maxSizePerPeer qfp
    ∧ maxMessages (Reset qfp) = maxMessages qfp
    ∧ maxSize (Reset qfp) = maxSize qfp.
Proof.
  exists (omap (statisticsOf qfp) (Keys (cacher qfp))).
  destruct (Reset_spec qfp) as (_ & _ & Hs).
  destruct (Reset_keeps_limits qfp) as (H1 & H2 & H3 & H4).
  split_and!; try done.
  - intros k a b c d. rewrite list_elem_of_omap. split.
    + intros (k' & Hin & Hst). unfold statisticsOf in Hst.
      destruct (find_entry k' (entries (cacher qfp))) as [[l|]|] eqn:Hf; [|done..].
      injection Hst as -> <- <- <- <-. exists l. split; [done|].
      by destruct (heap qfp !!! l).
    + intros (l & Hf & Hq). exists k. split.
      * apply elem_of_Keys_find. congruence.
      * unfold statisticsOf. by rewrite Hf, Hq.
  - intros call (k & _ & Hst)%list_elem_of_omap. unfold statisticsOf in Hst.
    destruct (find_entry k (entries (cacher qfp))) as [[l|]|]; [|done..].
    injection Hst as <-. eauto 6.
  - etrans; [apply omap_length_le|]. unfold Keys. by rewrite length_fmap.
Qed.

(** ** A cached value that is not a quota record *)

(** X7.  When the cache binds the identifier to a value that is not a quota
    record (the type assertion of accumulate fails), the call is treated as
    the first one of that identifier: it returns true and, if the cache can
    hold an entry, replaces the value by a new record that counts this one
    message as received and processed; the other records and the global
    record are not touched. *)
Theorem foreign_value_is_replaced qfp (p : string) (s : N) :
  isGlobalQuotaReached qfp = false →
  find_entry p (entries (cacher qfp)) = Some OtherValue →
  (Accumulate qfp p s).1 = true
  ∧ ((0 < maxEntries (cacher qfp))%nat →
     find_entry p (entries (cacher (Accumulate qfp p s).2)) = Some (QuotaPtr (nextLoc qfp)))
  ∧ heap (Accumulate qfp p s).2 !!! nextLoc qfp = Quota 1 s 1 s
  ∧ (∀ l, l ≠ nextLoc qfp → heap (Accumulate qfp p s).2 !!! l = heap qfp !!! l)
  ∧ globalQuota (Accumulate qfp p s).2 = globalQuota qfp.
Proof.
  intros Hg Hf. unfold Accumulate.
  rewrite accumulate_absent by (done || congruence). fields.
  split_and!; try done.
  - intros Hcap. apply Put_find_same. by rewrite Get_maxEntries.
  - by rewrite lookup_total_insert_eq.
  - intros l Hl. by rewrite lookup_total_insert_ne.
Qed.

Lemma foreign_value_is_replaced_witness :
  (Accumulate (setCacher exampleQFP (MkCacher 8 [("P", OtherValue)])) "P" 7).1 = true.
Proof.
  apply (foreign_value_is_replaced
           (setCacher exampleQFP (MkCacher 8 [("P", OtherValue)])) "P" 7);
    vm_compute; reflexivity.
Defined.

(** ** The values reported by the constructor *)

(** X8.  When the constructor rejects a limit, the error names the first limit
    below its minimum, in the order maxMessagesPerPeer, maxTotalSizePerPeer,
    maxMessages, maxTotalSize, and the minimum 1.  The value it reports as
    provided is the rejected one for maxMessagesPerPeer and maxTotalSize; for
    maxTotalSizePerPeer it is the value of maxTotalSize, and for maxMessages
    it is the value of maxMessagesPerPeer, which at that point is at least
    1. *)
Theorem NewQuotaFloodPreventer_reported_values
    (c : option Cacher) (hs : list (option QuotaStatusHandler)) (mmp msp mm ms : N)
    (field : string) (provided minimum : N) :
  NewQuotaFloodPreventer c hs mmp msp mm ms = inl (ErrInvalidValue field provided minimum) →
  is_Some c ∧ Forall is_Some hs ∧ minimum = 1
  ∧ ((field = "maxMessagesPerPeer" ∧ mmp = 0 ∧ provided = mmp)
     ∨ (field = "maxTotalSizePerPeer" ∧ 1 ≤ mmp ∧ msp = 0 ∧ provided = ms)
     ∨ (field = "maxMessages" ∧ 1 ≤ mmp ∧ 1 ≤ msp ∧ mm = 0
        ∧ provided = mmp ∧ minimum ≤ provided)
     ∨ (field = "maxTotalSize" ∧ 1 ≤ mmp ∧ 1 ≤ msp ∧ 1 ≤ mm ∧ ms = 0 ∧ provided = ms)).
Proof.
  unfold NewQuotaFloodPreventer, minMessages, minTotalSize.
  destruct c as [c|]; [|done].
  destruct (mapM id hs) as [hs'|] eqn:Hhs; [|done].
  assert (Forall is_Some hs) as Hall.
  { apply mapM_Some in Hhs. clear -Hhs.
    induction Hhs as [|x y l k Hx _ IH]; constructor; [|done].
    simpl in Hx. by rewrite Hx. }
  destruct (mmp <? 1) eqn:H1; [|destruct (msp <? 1) eqn:H2;
    [|destruct (mm <? 1) eqn:H3; [|destruct (ms <? 1) eqn:H4; [|done]]]];
    intros [= <- <- <-];
    repeat match goal with
           | H : (_ <? _) = true |- _ => apply N.ltb_lt in H
           | H : (_ <? _) = false |- _ => apply N.ltb_ge in H
           end;
    (split; [done|]); (split; [done|]); (split; [done|]).
  - left. split_and!; [done|lia|done].
  - right; left. split_and!; [done|lia|lia|done].
  - right; right; left. split_and!; [done|lia|lia|lia|done|lia].
  - right; right; right. split_and!; [done|lia|lia|lia|lia|done].
Qed.

Lemma NewQuotaFloodPreventer_reported_values_witness :
  NewQuotaFloodPreventer (Some (NewCacher 8)) [] 5 100 0 1000
  = inl (ErrInvalidValue "maxMessages" 5 1)
  ∧ 1 ≤ 5.
Proof.
  split; [reflexivity|].
  destruct (NewQuotaFloodPreventer_reported_values
              (Some (NewCacher 8)) [] 5 100 0 1000 "maxMessages" 5 1 eq_refl)
    as (_ & _ & _ & [(_ & H & _)|[(_ & H & _)|[(_ & H & _)|(_ & H & _)]]]);
    exact H || lia.
Defined.

(** ** The output flood preventer *)

Lemma globalInRange_step qfp c : globalInRange qfp → globalInRange (step qfp c).2.
Proof.
  intros [Hm Hs]. destruct c as [p s|p s|]; cbn [step].
  - unfold Accumulate.
    destruct (accumulate_keeps_limits qfp p s) as (_ & _ & _ & _ & Hg).
    destruct (accumulate qfp p s) as [b q]. cbn [fst snd] in *.
    unfold globalInRange. by rewrite Hg.
  - destruct (AccumulateGlobal_unfold qfp p s) as (_ & _ & _ & _ & _ & _ & _ & _ & Hg).
    destruct (accumulate_keeps_limits
                (setGlobalQuota qfp (addReceived (globalQuota qfp) s)) p s)
      as (_ & _ & _ & _ & Hg').
    destruct (AccumulateGlobal qfp p s) as [b q]. cbn [fst snd] in *.
    unfold globalInRange. rewrite Hg, Hg'. fields.
    assert (uint32 (numReceivedMessages (globalQuota qfp) + 1) < 2 ^ 32)
      by (apply N.mod_upper_bound; done).
    assert (uint64 (sizeReceivedMessages (globalQuota qfp) + s) < 2 ^ 64)
      by (apply N.mod_upper_bound; done).
    by destruct (accumulate _ p s).1.
  - cbn [snd]. destruct (Reset_spec qfp) as (_ & Hg & _).
    unfold globalInRange. rewrite Hg. simpl. lia.
Qed.

Lemma globalInRange_run cs : ∀ qfp, globalInRange qfp → globalInRange (run qfp cs).2.
Proof.
  induction cs as [|c cs IH]; intros qfp H; [done|].
  rewrite run_cons. cbn [snd]. by apply IH, globalInRange_step.
Qed.

Lemma globalInRange_open qfp :
  maxMessages qfp = MaxUint32 → maxSize qfp = MaxUint64 →
  globalInRange qfp → isGlobalQuotaReached qfp = false.
Proof.
  intros Hm Hs [H1 H2]. unfold isGlobalQuotaReached. rewrite Hm, Hs.
  apply orb_false_iff. split; apply N.ltb_ge; unfold MaxUint32, MaxUint64; lia.
Qed.

(** With the gate of the global record open before and after its received
    counters are changed, the call does to the cache and to the records what
    it does without the change. *)
Lemma accumulate_setGlobalQuota qfp g p s :
  isGlobalQuotaReached qfp = false →
  isGlobalQuotaReached (setGlobalQuota qfp g) = false →
  (accumulate (setGlobalQuota qfp g) p s).1 = (accumulate qfp p s).1
  ∧ cacher (accumulate (setGlobalQuota qfp g) p s).2 = cacher (accumulate qfp p s).2
  ∧ heap (accumulate (setGlobalQuota qfp g) p s).2 = heap (accumulate qfp p s).2.
Proof.
  intros H1 H2. unfold accumulate. rewrite H1, H2. fields.
  destruct (Get (cacher qfp) p) as [[[l|]|] c]; fields; try done.
  unfold isPeerQuotaReached. fields.
  by destruct (_ || _).
Qed.

(** X9.  The flood preventer that initP2POutputAntiFlood creates has no global
    limit.  Its global limits are the largest uint32 and uint64, which the
    counters of the global record cannot exceed: after any sequence of
    Accumulate, AccumulateGlobal and Reset calls the global quota is not
    reached, and AccumulateGlobal returns what Accumulate returns and leaves
    the same cache and the same records. *)
Theorem output_antiflood_has_no_global_limit
    (cache : option Cacher) (mmp msp : N) qfp0 (cs : list call) :
  outputFloodPreventer cache mmp msp = inr qfp0 →
  isGlobalQuotaReached (run qfp0 cs).2 = false
  ∧ ∀ (p : string) (s : N),
      (AccumulateGlobal (run qfp0 cs).2 p s).1 = (Accumulate (run qfp0 cs).2 p s).1
      ∧ cacher (AccumulateGlobal (run qfp0 cs).2 p s).2
        = cacher (Accumulate (run qfp0 cs).2 p s).2
      ∧ heap (AccumulateGlobal (run qfp0 cs).2 p s).2
        = heap (Accumulate (run qfp0 cs).2 p s).2.
Proof.
  intros Hnew.
  assert (maxMessages qfp0 = MaxUint32 ∧ maxSize qfp0 = MaxUint64
          ∧ globalQuota qfp0 = zeroQuota) as (Hm0 & Hs0 & Hg0).
  { unfold outputFloodPreventer, NewQuotaFloodPreventer in Hnew.
    destruct cache; [|done]. destruct (mapM id _); [|done].
    repeat (case_match; [done|]). by injection Hnew as <-. }
  assert (globalInRange qfp0) as H0.
  { unfold globalInRange. rewrite Hg0. simpl. lia. }
  pose proof (globalInRange_run cs qfp0 H0) as Hr.
  destruct (limits_run cs qfp0) as (_ & _ & Hm & Hs).
  rewrite Hm0 in Hm. rewrite Hs0 in Hs.
  set (qfp := (run qfp0 cs).2) in *.
  pose proof (globalInRange_open qfp Hm Hs Hr) as Hopen.
  split; [done|]. intros p s.
  destruct (AccumulateGlobal_unfold qfp p s) as (Hv & Hc & Hh & _).
  rewrite Hv, Hc, Hh. unfold Accumulate.
  replace (accumulate qfp p s) with ((accumulate qfp p s).1, (accumulate qfp p s).2)
    by (by destruct (accumulate qfp p s)).
  cbn [fst snd].
  apply accumulate_setGlobalQuota; [done|].
  apply globalInRange_open; [done|done|].
  split; fields; apply N.mod_upper_bound; done.
Qed.

Lemma output_antiflood_has_no_global_limit_witness :
  isGlobalQuotaReached
    (run (MkQFP (NewCacher 8) ∅ 0%nat [] 2 100 MaxUint32 MaxUint64 zeroQuota)
         [CallAccumulateGlobal "P" 5; CallReset; CallAccumulateGlobal "P" 7]).2 = false.
Proof.
  apply (output_antiflood_has_no_global_limit (Some (NewCacher 8)) 2 100).
  reflexivity.
Defined.

(** ** A reset flood preventer and a new one *)

Lemma find_shift d k es :
  find_entry k (shiftEntry d <$> es) = shiftValue d <$> find_entry k es.
Proof.
  induction es as [|[k' v] es IH]; [done|].
  rewrite fmap_cons. cbn [find_entry shiftEntry fst snd]. by case_decide.
Qed.

Lemma drop_shift d k es :
  drop_entry k (shiftEntry d <$> es) = shiftEntry d <$> drop_entry k es.
Proof.
  induction es as [|[k' v] es IH]; [done|].
  rewrite fmap_cons. cbn [drop_entry shiftEntry fst snd].
  case_decide; [done|]. by rewrite fmap_cons, IH.
Qed.

Lemma find_elem k es v : find_entry k es = Some v → (k, v) ∈ es.
Proof.
  induction es as [|[k' v'] es IH]; [done|]. cbn [find_entry].
  case_decide as Hk.
  - intros [= ->]. subst. by left.
  - intros Hin. right. by apply IH.
Qed.

Lemma drop_elem k es e : e ∈ drop_entry k es → e ∈ es.
Proof.
  induction es as [|[k' v'] es IH]; [done|]. cbn [drop_entry].
  case_decide.
  - intros Hin. right. by apply IH.
  - intros [->|Hin]%elem_of_cons; [by left|right; by apply IH].
Qed.

Lemma Get_entries c k :
  entries (Get c k).2
  = match find_entry k (entries c) with
    | Some v => (k, v) :: drop_entry k (entries c)
    | None => entries c
    end.
Proof. unfold Get. by destruct (find_entry k (entries c)). Qed.

Lemma Get_elem c k e : e ∈ entries (Get c k).2 → e ∈ entries c.
Proof.
  rewrite Get_entries. destruct (find_entry k (entries c)) as [v|] eqn:Hf; [|done].
  intros [->|Hin]%elem_of_cons; [by apply find_elem|by apply drop_elem in Hin].
Qed.

Lemma Put_elem c k v e : e ∈ entries (Put c k v) → e = (k, v) ∨ e ∈ entries c.
Proof.
  unfold Put. cbn [entries]. intros Hin%subseteq_take.
  apply elem_of_cons in Hin as [->|Hin]; [by left|right; by apply drop_elem in Hin].
Qed.

Lemma Get_shift d c1 c2 k :
  maxEntries c1 = maxEntries c2 →
  entries c1 = shiftEntry d <$> entries c2 →
  maxEntries (Get c1 k).2 = maxEntries (Get c2 k).2
  ∧ entries (Get c1 k).2 = shiftEntry d <$> entries (Get c2 k).2.
Proof.
  intros Hm He. rewrite !Get_maxEntries, !Get_entries, He, find_shift.
  split; [done|].
  destruct (find_entry k (entries c2)) as [v|]; cbn [fmap option_fmap option_map]; [|done].
  by rewrite fmap_cons, drop_shift.
Qed.

Lemma Put_shift d c1 c2 k v :
  maxEntries c1 = maxEntries c2 →
  entries c1 = shiftEntry d <$> entries c2 →
  maxEntries (Put c1 k (shiftValue d v)) = maxEntries (Put c2 k v)
  ∧ entries (Put c1 k (shiftValue d v)) = shiftEntry d <$> entries (Put c2 k v).
Proof.
  intros Hm He. unfold Put. cbn [maxEntries entries]. split; [done|].
  by rewrite Hm, He, fmap_take, fmap_cons, drop_shift.
Qed.

Lemma mirrors_gate d qfp1 qfp2 :
  mirrors d qfp1 qfp2 → isGlobalQuotaReached qfp1 = isGlobalQuotaReached qfp2.
Proof.
  intros (_ & _ & _ & _ & _ & _ & _ & Hmm & Hms & Hg).
  unfold isGlobalQuotaReached. by rewrite Hmm, Hms, Hg.
Qed.

Lemma mirrors_accumulate d qfp1 qfp2 p s :
  mirrors d qfp1 qfp2 →
  (accumulate qfp1 p s).1 = (accumulate qfp2 p s).1
  ∧ mirrors d (accumulate qfp1 p s).2 (accumulate qfp2 p s).2.
Proof.
  intros Hmir. pose proof (mirrors_gate _ _ _ Hmir) as Hgate.
  destruct Hmir as (Hcap & Hent & Hnext & Hheap & Hbound & Hmmp & Hmsp & Hmm & Hms & Hg).
  pose proof (find_shift d p (entries (cacher qfp2))) as Hfind. rewrite <- Hent in Hfind.
  assert (Hheap' : ∀ l : loc, (l < nextLoc qfp2)%nat →
            @lookup_total loc quota _ _ (l + d)%nat (heap qfp1) = heap qfp2 !!! l)
    by exact Hheap.
  destruct (Get_shift d (cacher qfp1) (cacher qfp2) p Hcap Hent) as [HcapG HentG].
  destruct (accumulate_cases qfp2 p s)
    as [[Hopen ->]|[(Hopen & Hno & ->)|[(l & Hopen & Hf & Hp & ->)|(l & Hopen & Hf & Hp & ->)]]].
  - rewrite accumulate_reached by congruence. done.
  - rewrite accumulate_absent; [|congruence|].
    2:{ intros l Hl. rewrite Hfind in Hl.
        destruct (find_entry p (entries (cacher qfp2))) as [[l2|]|]; [|done..].
        by destruct (Hno l2). }
    split; [done|]. unfold mirrors. fields.
    destruct (Put_shift d _ _ p (QuotaPtr (nextLoc qfp2)) HcapG HentG) as [HcapP HentP].
    cbn [shiftValue] in HcapP, HentP. rewrite Hnext.
    split_and!; try done.
    + intros l Hl. destruct (decide (l = nextLoc qfp2)) as [->|Hne].
      * by rewrite !lookup_total_insert_eq.
      * rewrite !lookup_total_insert_ne by lia. apply Hheap. lia.
    + intros k l [[= -> ->]|Hin%Get_elem]%Put_elem; [lia|].
      apply Hbound in Hin. lia.
  - assert (Hl : (l < nextLoc qfp2)%nat) by (by apply (Hbound p), find_elem).
    rewrite Hf in Hfind. cbn in Hfind.
    rewrite (accumulate_present qfp1 p s (l + d)%nat) by congruence.
    rewrite (Hheap' l Hl).
    assert (isPeerQuotaReached qfp1 (addReceived (heap qfp2 !!! l) s) = true) as ->.
    { unfold isPeerQuotaReached in *. by rewrite Hmmp, Hmsp. }
    split; [done|]. unfold mirrors. fields.
    split_and!; try done.
    + intros l' Hl'. destruct (decide (l' = l)) as [->|Hne].
      * by rewrite !lookup_total_insert_eq, (Hheap' l Hl).
      * rewrite !lookup_total_insert_ne by lia. by apply Hheap.
    + intros k l' Hin%Get_elem. by apply (Hbound k).
  - assert (Hl : (l < nextLoc qfp2)%nat) by (by apply (Hbound p), find_elem).
    rewrite Hf in Hfind. cbn in Hfind.
    rewrite (accumulate_present qfp1 p s (l + d)%nat) by congruence.
    rewrite (Hheap' l Hl).
    assert (isPeerQuotaReached qfp1 (addReceived (heap qfp2 !!! l) s) = false) as ->.
    { unfold isPeerQuotaReached in *. by rewrite Hmmp, Hmsp. }
    split; [done|]. unfold mirrors. fields.
    destruct (Put_shift d _ _ p (QuotaPtr l) HcapG HentG) as [HcapP HentP].
    cbn [shiftValue] in HcapP, HentP.
    split_and!; try done.
    + intros l' Hl'. destruct (decide (l' = l)) as [->|Hne].
      * by rewrite !lookup_total_insert_eq, (Hheap' l Hl).
      * rewrite !lookup_total_insert_ne by lia. by apply Hheap.
    + intros k l' [[= -> ->]|Hin%Get_elem]%Put_elem; [done|].
      by apply (Hbound k).
Qed.

Lemma createStatisticsFor_store qfp k :
  heap (createStatisticsFor qfp k) = heap qfp
  ∧ nextLoc (createStatisticsFor qfp k) = nextLoc qfp.
Proof.
  unfold createStatisticsFor.
  destruct (Get (cacher qfp) k) as [[[l|]|] c]; done.
Qed.

Lemma foldl_createStatisticsFor_store keys :
  ∀ qfp, heap (foldl createStatisticsFor qfp keys) = heap qfp
         ∧ nextLoc (foldl createStatisticsFor qfp keys) = nextLoc qfp.
Proof.
  induction keys as [|k keys IH]; intros qfp; [done|]. cbn [foldl].
  destruct (createStatisticsFor_store qfp k) as [H1 H2].
  destruct (IH (createStatisticsFor qfp k)) as [H1' H2'].
  split; congruence.
Qed.

Lemma Reset_keeps_store qfp :
  heap (Reset qfp) = heap qfp ∧ nextLoc (Reset qfp) = nextLoc qfp.
Proof.
  unfold Reset, createStatistics.
  set (q1 := resetStatusHandlers qfp).
  destruct (foldl_createStatisticsFor_store (Keys (cacher q1)) q1) as [H1 H2].
  unfold notifyGlobalQuota. fields. done.
Qed.

Lemma mirrors_step d qfp1 qfp2 c :
  mirrors d qfp1 qfp2 →
  (step qfp1 c).1 = (step qfp2 c).1 ∧ mirrors d (step qfp1 c).2 (step qfp2 c).2.
Proof.
  intros Hmir. destruct c as [p s|p s|]; cbn [step].
  - unfold Accumulate.
    destruct (mirrors_accumulate d qfp1 qfp2 p s Hmir) as [Hv Hm].
    destruct (accumulate qfp1 p s), (accumulate qfp2 p s). cbn [fst snd] in *.
    by rewrite Hv.
  - assert (Hmir' : mirrors d (setGlobalQuota qfp1 (addReceived (globalQuota qfp1) s))
                      (setGlobalQuota qfp2 (addReceived (globalQuota qfp2) s))).
    { destruct Hmir as (? & ? & ? & ? & ? & ? & ? & ? & ? & Hg).
      unfold mirrors. fields. rewrite Hg. done. }
    destruct (mirrors_accumulate d _ _ p s Hmir')
      as (Hv & Hcap & Hent & Hnext & Hheap & Hbound & Hmmp & Hmsp & Hmm & Hms & Hg).
    destruct (AccumulateGlobal_unfold qfp1 p s)
      as (Hv1 & Hc1 & Hh1 & Hn1 & Ha1 & Hb1 & Hc1' & Hd1 & Hg1).
    destruct (AccumulateGlobal_unfold qfp2 p s)
      as (Hv2 & Hc2 & Hh2 & Hn2 & Ha2 & Hb2 & Hc2' & Hd2 & Hg2).
    destruct (AccumulateGlobal qfp1 p s) as [b1 q1'].
    destruct (AccumulateGlobal qfp2 p s) as [b2 q2']. cbn [fst snd] in *.
    split; [congruence|].
    unfold mirrors.
    rewrite Hc1, Hc2, Hh1, Hh2, Hn1, Hn2, Ha1, Ha2, Hb1, Hb2, Hc1', Hc2', Hd1, Hd2,
      Hg1, Hg2, Hv, Hg.
    done.
  - cbn [fst snd]. split; [done|].
    destruct Hmir as (Hcap & Hent & Hnext & Hheap & Hbound & Hmmp & Hmsp & Hmm & Hms & Hg).
    destruct (Reset_spec qfp1) as (Hc1 & Hg1 & _).
    destruct (Reset_spec qfp2) as (Hc2 & Hg2 & _).
    destruct (Reset_keeps_limits qfp1) as (Ha1 & Hb1 & Hc1' & Hd1).
    destruct (Reset_keeps_limits qfp2) as (Ha2 & Hb2 & Hc2' & Hd2).
    destruct (Reset_keeps_store qfp1) as (Hh1 & Hn1).
    destruct (Reset_keeps_store qfp2) as (Hh2 & Hn2).
    unfold mirrors.
    rewrite Hc1, Hc2, Hh1, Hh2, Hn1, Hn2, Ha1, Ha2, Hb1, Hb2, Hc1', Hc2', Hd1, Hd2,
      Hg1, Hg2.
    cbn [NewCacher maxEntries entries]. split_and!; try done.
    intros k l Hin. by apply elem_of_nil in Hin.
Qed.

Lemma mirrors_run d cs :
  ∀ qfp1 qfp2, mirrors d qfp1 qfp2 →
    (run qfp1 cs).1 = (run qfp2 cs).1 ∧ mirrors d (run qfp1 cs).2 (run qfp2 cs).2.
Proof.
  induction cs as [|c cs IH]; intros qfp1 qfp2 Hmir; [done|].
  rewrite !run_cons. cbn [fst snd].
  destruct (mirrors_step d qfp1 qfp2 c Hmir) as [Hv Hm].
  destruct (IH _ _ Hm) as [Hvs Hms].
  split; [by rewrite Hv, Hvs|done].
Qed.

(** X10.  After Reset the flood preventer decides as a new one.  Whatever state
    Reset is called in, every later sequence of Accumulate, AccumulateGlobal
    and Reset calls gets, call by call, the answers that the same sequence
    gets from a flood preventer newly created with the same limits on an
    empty cache of the same capacity, whatever status handlers that one is
    given; and the two end with the same global record. *)
Theorem Reset_behaves_as_new qfp (hs : list (option QuotaStatusHandler)) qfp0
    (cs : list call) :
  NewQuotaFloodPreventer (Some (NewCacher (maxEntries (cacher qfp)))) hs
    (maxMessagesPerPeer qfp) (maxSizePerPeer qfp) (maxMessages qfp) (maxSize qfp)
  = inr qfp0 →
  (run (Reset qfp) cs).1 = (run qfp0 cs).1
  ∧ globalQuota (run (Reset qfp) cs).2 = globalQuota (run qfp0 cs).2
  ∧ Keys (cacher (run (Reset qfp) cs).2) = Keys (cacher (run qfp0 cs).2).
Proof.
  intros Hnew.
  apply NewQuotaFloodPreventer_fresh in Hnew
    as (Hc0 & Hg0 & Hh0 & Hn0 & Ha0 & Hb0 & Hc0' & Hd0).
  assert (Hmir : mirrors (nextLoc (Reset qfp)) (Reset qfp) qfp0).
  { destruct (Reset_spec qfp) as (Hc & Hg & _).
    destruct (Reset_keeps_limits qfp) as (Ha & Hb & Hc' & Hd).
    unfold mirrors. rewrite Hc, Hg, Ha, Hb, Hc', Hd, Hc0, Hg0, Hn0, Ha0, Hb0, Hc0', Hd0.
    cbn [NewCacher maxEntries entries]. split_and!; try done.
    - intros l Hl. lia.
    - intros k l Hin. by apply elem_of_nil in Hin. }
  destruct (mirrors_run _ cs _ _ Hmir) as (Hv & _ & Hent & _ & _ & _ & _ & _ & _ & _ & Hg).
  split_and!; [done|done|].
  unfold Keys. rewrite Hent, <- list_fmap_compose.
  apply list_fmap_ext. intros _ [k v] _. done.
Qed.

Lemma Reset_behaves_as_new_witness :
  (run (Reset (run exampleQFP [CallAccumulate "P" 60; CallAccumulateGlobal "Q" 50]).2)
       [CallAccumulate "P" 60; CallAccumulate "P" 60]).1
  = [Some true; Some false].
Proof.
  destruct (Reset_behaves_as_new
              (run exampleQFP [CallAccumulate "P" 60; CallAccumulateGlobal "Q" 50]).2
              [] exampleQFP [CallAccumulate "P" 60; CallAccumulate "P" 60])
    as (Hv & _); [vm_compute; reflexivity|].
  rewrite Hv. vm_compute. reflexivity.
Defined.

(** ** The records of the other peers *)

Lemma accumulate_other qfp p s q :
  wf qfp → q ≠ p →
  (find_entry q (entries (cacher (accumulate qfp p s).2))
   = find_entry q (entries (cacher qfp))
   ∨ find_entry q (entries (cacher (accumulate qfp p s).2)) = None)
  ∧ ∀ l, find_entry q (entries (cacher qfp)) = Some (QuotaPtr l) →
         heap (accumulate qfp p s).2 !!! l = heap qfp !!! l.
Proof.
  intros [Hlt Hinj] Hne.
  destruct (accumulate_cases qfp p s)
    as [[_ ->]|[(_ & _ & ->)|[(lp & _ & Hf & _ & ->)|(lp & _ & Hf & _ & ->)]]]; fields.
  - split; [by left|done].
  - split.
    + destruct (Put_find_other (Get (cacher qfp) p).2 p (QuotaPtr (nextLoc qfp)) q Hne)
        as [He|He]; [left|by right].
      by rewrite He, Get_find.
    + intros l Hl. apply Hlt in Hl. rewrite lookup_total_insert_ne; [done|lia].
  - split; [left; apply Get_find|].
    intros l Hl. rewrite lookup_total_insert_ne; [done|].
    intros Heq. destruct Hne. apply (Hinj q p l); [done|]. congruence.
  - split.
    + destruct (Put_find_other (Get (cacher qfp) p).2 p (QuotaPtr lp) q Hne)
        as [He|He]; [left|by right].
      by rewrite He, Get_find.
    + intros l Hl. rewrite lookup_total_insert_ne; [done|].
      intros Heq. destruct Hne. apply (Hinj q p l); [done|]. congruence.
Qed.

(** X11.  One peer's traffic is never charged to another.  In every state reached
    from a new flood preventer, a call of Accumulate or AccumulateGlobal for
    the identifier p leaves the record of every other identifier q as it is:
    the four counters of the record that the cache binds to q are unchanged,
    and after the call the cache binds q as before or, when q was evicted,
    not at all. *)
Theorem accumulate_charges_only_its_peer
    cap hs mmp msp mm ms qfp0 (pre : list call) (p q : string) (s : N) (c : call) :
  NewQuotaFloodPreventer (Some (NewCacher cap)) hs mmp msp mm ms = inr qfp0 →
  q ≠ p →
  c = CallAccumulate p s ∨ c = CallAccumulateGlobal p s →
  (find_entry q (entries (cacher (step (run qfp0 pre).2 c).2))
   = find_entry q (entries (cacher (run qfp0 pre).2))
   ∨ find_entry q (entries (cacher (step (run qfp0 pre).2 c).2)) = None)
  ∧ ∀ l, find_entry q (entries (cacher (run qfp0 pre).2)) = Some (QuotaPtr l) →
         heap (step (run qfp0 pre).2 c).2 !!! l = heap (run qfp0 pre).2 !!! l.
Proof.
  intros Hnew Hne Hc.
  assert (Hwf : wf (run qfp0 pre).2) by (by eapply wf_run, wf_new).
  set (qfp := (run qfp0 pre).2) in *.
  destruct Hc as [->| ->]; cbn [step].
  - unfold Accumulate. pose proof (accumulate_other qfp p s q Hwf Hne) as H.
    by destruct (accumulate qfp p s).
  - destruct (AccumulateGlobal_unfold qfp p s) as (_ & Hc & Hh & _).
    pose proof (accumulate_other (setGlobalQuota qfp (addReceived (globalQuota qfp) s))
                  p s q Hwf Hne) as H.
    destruct (AccumulateGlobal qfp p s) as [b qfp']. cbn [fst snd] in *.
    by rewrite Hc, Hh.
Qed.

Lemma accumulate_charges_only_its_peer_witness :
  heap (step (run exampleQFP [CallAccumulate "Q" 5; CallAccumulate "P" 1]).2
             (CallAccumulateGlobal "P" 7)).2 !!! 0%nat
  = Quota 1 5 1 5.
Proof.
  destruct (accumulate_charges_only_its_peer 8 [] 10 100 10 1000 exampleQFP
              [CallAccumulate "Q" 5; CallAccumulate "P" 1] "P" "Q" 7
              (CallAccumulateGlobal "P" 7) eq_refl)
    as [_ Hrec]; [discriminate|by right|].
  etrans; [apply (Hrec 0%nat)|]; vm_compute; reflexivity.
Defined.

End FloodPreventers.

Module PoolsCleaner.

Local Open Scope Z_scope.

#[global] Instance byte_eq_dec : EqDecision Byte.byte := Byte.byte_eq_dec.

(** const ( blockTx = iota; rewardTx; unsignedTx ), used at type int8 *)
Definition blockTx : Z := 0.
Definition rewardTx : Z := 1.
Definition unsignedTx : Z := 2.

(** A sub-cache of a sharded pool is an object shared by the pool, the
    cleaner and the rest of the node; [storeId] is its address. *)
Definition storeId := nat.

(** type txInfo struct *)
Record txInfo := MkTxInfo {
  round : Z;             (* int64 *)
  senderShardID : N;     (* uint32 *)
  receiverShardID : N;   (* uint32 *)
  txType : Z;            (* int8 *)
  txStore : storeId;     (* storage.Cacher *)
}.

#[global] Instance txInfo_eq_dec : EqDecision txInfo.
Proof. solve_decision. Defined.

(** The values that the pools hand to the callbacks ([interface{}]):
    a [*txcache.WrappedTransaction], some [data.TransactionHandler], or a
    value of another dynamic type. *)
Inductive poolValue :=
  | WrappedTransaction (SenderShardID ReceiverShardID : N)
  | TransactionHandler (SndAddr RcvAddr : list Byte.byte)
  | OtherValue.

(** A call that the cleaner makes on a sub-cache. *)
Inductive storeCall :=
  | CallGet (s : storeId) (key : string)
  | CallRemove (s : storeId) (key : string).

#[global] Instance storeCall_eq_dec : EqDecision storeCall.
Proof. solve_decision. Defined.

(** Modelled from the spec: the sharded pools and their sub-caches are
    external collaborators that are not part of the sources; the spec (6)
    gives a pool ShardDataStore(shard_pair_key) → Cache and a Cache
    Get(key) → (value, present) and Remove(key).  [content] is what the
    sub-caches hold, by sub-cache and key; [storeCalls] records the calls
    that the cleaner makes on them, oldest first. *)
Record pools := MkPools {
  content : gmap (storeId * string) poolValue;
  storeCalls : list storeCall;
}.

(** Modelled from the spec: Get(key) → (value, present) on the sub-cache [s]. *)
Definition storeGet (w : pools) (s : storeId) (key : string) : option poolValue * pools :=
  (content w !! (s, key), MkPools (content w) (storeCalls w ++ [CallGet s key])).

(** Modelled from the spec: Remove(key) on the sub-cache [s]. *)
Definition storeRemove (w : pools) (s : storeId) (key : string) : pools :=
  MkPools (delete (s, key) (content w)) (storeCalls w ++ [CallRemove s key]).

(** dataRetriever.ShardedDataCacherNotifier, reduced to ShardDataStore, which
    returns nil ([None]) when the pool has no sub-cache of that name. *)
Definition ShardedDataCacherNotifier := string → option storeId.

(** sharding.Coordinator, reduced to the two methods used here. *)
Record Coordinator := MkCoordinator {
  SelfId : N;
  ComputeId : list Byte.byte → N;
}.

(** type txsPoolsCleaner struct.  The address converter is reduced to its
    Len(); the rounder belongs to the rest of the node, and the functions
    that call rounder.Index() take what it returns as an argument ([index]
    in the callbacks, [Index] in the reaper pass). *)
Record txsPoolsCleaner := MkCleaner {
  addressPubkeyConverterLen : nat;
  blockTransactionsPool : ShardedDataCacherNotifier;
  rewardTransactionsPool : ShardedDataCacherNotifier;
  unsignedTransactionsPool : ShardedDataCacherNotifier;
  shardCoordinator : Coordinator;
  mapTxsRounds : gmap string txInfo;
  emptyAddress : list Byte.byte;
}.

Definition setMapTxsRounds (tpc : txsPoolsCleaner) (m : gmap string txInfo) : txsPoolsCleaner :=
  MkCleaner (addressPubkeyConverterLen tpc) (blockTransactionsPool tpc)
    (rewardTransactionsPool tpc) (unsignedTransactionsPool tpc)
    (shardCoordinator tpc) m (emptyAddress tpc).

Inductive error :=
  | ErrNilPubkeyConverter
  | ErrNilPoolsHolder
  | ErrNilTransactionPool
  | ErrNilRewardTxDataPool
  | ErrNilUnsignedTxDataPool
  | ErrNilRounder
  | ErrNilShardCoordinator
  | ErrWrongTypeAssertion.

(** dataRetriever.PoolsHolder, reduced to the three pools used here. *)
Record PoolsHolder := MkPoolsHolder {
  Transactions : option ShardedDataCacherNotifier;
  RewardTransactions : option ShardedDataCacherNotifier;
  UnsignedTransactions : option ShardedDataCacherNotifier;
}.

(** func NewTxsPoolsCleaner.  A nil interface argument is [None];
    [emptyAddress] is make([]byte, Len()): Len() zero bytes.  The
    registration of the three callbacks and the start of the reaper task are
    not part of the returned value. *)
Definition NewTxsPoolsCleaner
    (addressPubkeyConverter : option nat)
    (dataPool : option PoolsHolder)
    (rounder : option unit)
    (shardCoordinator : option Coordinator)
  : error + txsPoolsCleaner :=
  match addressPubkeyConverter with
  | None => inl ErrNilPubkeyConverter
  | Some len =>
  match dataPool with
  | None => inl ErrNilPoolsHolder
  | Some dataPool =>
  match Transactions dataPool with
  | None => inl ErrNilTransactionPool
  | Some txs =>
  match RewardTransactions dataPool with
  | None => inl ErrNilRewardTxDataPool
  | Some rewards =>
  match UnsignedTransactions dataPool with
  | None => inl ErrNilUnsignedTxDataPool
  | Some unsigned =>
  match rounder with
  | None => inl ErrNilRounder
  | Some _ =>
  match shardCoordinator with
  | None => inl ErrNilShardCoordinator
  | Some coordinator =>
    inr (MkCleaner len txs rewards unsigned coordinator ∅ (replicate len Byte.x00))
  end end end end end end end.

Section Callbacks.

(** Declarations of other packages that the sources use but do not contain:
    core.MetachainShardId and process.ShardCacherIdentifier. *)
Variable MetachainShardId : N.
Variable ShardCacherIdentifier : N → N → string.

(** func (tpc *txsPoolsCleaner) getTransactionPool *)
Definition getTransactionPool (tpc : txsPoolsCleaner) (txType : Z)
  : option ShardedDataCacherNotifier :=
  if decide (txType = blockTx) then Some (blockTransactionsPool tpc)
  else if decide (txType = rewardTx) then Some (rewardTransactionsPool tpc)
  else if decide (txType = unsignedTx) then Some (unsignedTransactionsPool tpc)
  else None.

(** func (tpc *txsPoolsCleaner) processReceivedTx; [index] is the value of
    tpc.rounder.Index(). *)
Definition processReceivedTx (index : Z) (tpc : txsPoolsCleaner) (key : string)
    (senderShardID receiverShardID : N) (txType : Z) : txsPoolsCleaner :=
  match mapTxsRounds tpc !! key with
  | Some _ => tpc
  | None =>
    match getTransactionPool tpc txType with
    | None => tpc
    | Some transactionPool =>
      let strCache := ShardCacherIdentifier senderShardID receiverShardID in
      match transactionPool strCache with
      | None => tpc
      | Some txStore =>
        let currTxInfo := MkTxInfo index senderShardID receiverShardID txType txStore in
        setMapTxsRounds tpc (<[key := currTxInfo]> (mapTxsRounds tpc))
      end
    end
  end.

(** func (tpc *txsPoolsCleaner) getShardFromAddress; bytes.Equal is equality
    of the contents.  The error it returns is always nil. *)
Definition getShardFromAddress (tpc : txsPoolsCleaner) (address : list Byte.byte)
  : N * option error :=
  let isEmptyAddress := bool_decide (address = emptyAddress tpc) in
  if isEmptyAddress then (SelfId (shardCoordinator tpc), None)
  else (ComputeId (shardCoordinator tpc) address, None).

(** func (tpc *txsPoolsCleaner) computeSenderAndReceiverShards *)
Definition computeSenderAndReceiverShards (tpc : txsPoolsCleaner)
    (SndAddr RcvAddr : list Byte.byte) : N * N * option error :=
  match getShardFromAddress tpc SndAddr with
  | (_, Some err) => (0%N, 0%N, Some err)
  | (senderShardID, None) =>
    match getShardFromAddress tpc RcvAddr with
    | (_, Some err) => (0%N, 0%N, Some err)
    | (receiverShardID, None) => (senderShardID, receiverShardID, None)
    end
  end.

(** func (tpc *txsPoolsCleaner) receivedBlockTx; a nil key is [None]. *)
Definition receivedBlockTx (index : Z) (tpc : txsPoolsCleaner)
    (key : option string) (value : poolValue) : txsPoolsCleaner :=
  match key with
  | None => tpc
  | Some key =>
    match value with
    | WrappedTransaction sender receiver =>
      processReceivedTx index tpc key sender receiver blockTx
    | _ => tpc
    end
  end.

(** func (tpc *txsPoolsCleaner) receivedRewardTx *)
Definition receivedRewardTx (index : Z) (tpc : txsPoolsCleaner)
    (key : option string) (value : poolValue) : txsPoolsCleaner :=
  match key with
  | None => tpc
  | Some key =>
    let senderShardID := MetachainShardId in
    let receiverShardID := SelfId (shardCoordinator tpc) in
    processReceivedTx index tpc key senderShardID receiverShardID rewardTx
  end.

(** func (tpc *txsPoolsCleaner) receivedUnsignedTx *)
Definition receivedUnsignedTx (index : Z) (tpc : txsPoolsCleaner)
    (key : option string) (value : poolValue) : txsPoolsCleaner :=
  match key with
  | None => tpc
  | Some key =>
    match value with
    | TransactionHandler SndAddr RcvAddr =>
      match computeSenderAndReceiverShards tpc SndAddr RcvAddr with
      | (_, _, Some err) => tpc
      | (senderShardID, receiverShardID, None) =>
        processReceivedTx index tpc key senderShardID receiverShardID unsignedTx
      end
    | _ => tpc
    end
  end.

End Callbacks.

(** What a callback may do to the cleaner when the pool delivers [key]:
    every pending record stays as it is, no hash other than [key] gets a
    record, and nothing but the pending map changes. *)
Definition extendsAt (key : option string) (tpc tpc' : txsPoolsCleaner) : Prop :=
  (∀ hash info, mapTxsRounds tpc !! hash = Some info →
                mapTxsRounds tpc' !! hash = Some info)
  ∧ (∀ hash, key ≠ Some hash → mapTxsRounds tpc' !! hash = mapTxsRounds tpc !! hash)
  ∧ (∀ m, setMapTxsRounds tpc' m = setMapTxsRounds tpc m).

(** *** States of the scenarios *)

(** A coordinator of shard 1 that sends every address to shard 0, pools whose
    sub-cache "0_1" is the store 7, and a threshold of 5 rounds. *)
Definition exampleCoordinator : Coordinator := MkCoordinator 1 (λ _, 0%N).

Definition examplePool : ShardedDataCacherNotifier :=
  λ name, if decide (name = "0_1") then Some 7%nat else None.

Definition exampleIdentifier : N → N → string := λ _ _, "0_1".

Definition exampleCleaner : txsPoolsCleaner :=
  MkCleaner 2 examplePool examplePool examplePool exampleCoordinator ∅
    [Byte.x00; Byte.x00].

(** The pool emits the hash "H" at round 100. *)
Definition cleanerWithH : txsPoolsCleaner :=
  receivedBlockTx exampleIdentifier 100 exampleCleaner (Some "H") (WrappedTransaction 0 1).

Definition infoH : txInfo := MkTxInfo 100 0 1 blockTx 7%nat.

Definition poolsWithH : pools := MkPools {[ (7%nat, "H") := WrappedTransaction 0 1 ]} [].

Definition poolsWithoutH : pools := MkPools ∅ [].

(** Three pending records: "H" of round 100 and "G" of round 103, both still
    in the sub-cache 7, and "F" of round 90, which is no longer there; the
    sub-cache also holds "K", which has no record. *)
Definition cleanerWithHGF : txsPoolsCleaner :=
  setMapTxsRounds exampleCleaner
    (<["H" := infoH]> (<["G" := MkTxInfo 103 0 1 blockTx 7%nat]>
       (<["F" := MkTxInfo 90 0 1 rewardTx 7%nat]> ∅))).

Definition poolsWithHG : pools :=
  MkPools (<[(7%nat, "H") := WrappedTransaction 0 1]>
             (<[(7%nat, "G") := WrappedTransaction 0 1]>
                (<[(7%nat, "K") := OtherValue]> ∅))) [].

#[global] Instance poolValue_eq_dec : EqDecision poolValue.
Proof. solve_decision. Defined.

(** The Get call that the pass makes for an entry of the pending map. *)
Definition getOf (entry : string * txInfo) : storeCall :=
  CallGet (txStore entry.2) entry.1.

Definition isGet (c : storeCall) : bool :=
  match c with CallGet _ _ => true | CallRemove _ _ => false end.

Section Reaper.

(** process.MaxRoundsToKeepUnprocessedTransactions, a constant of another
    package that the sources do not contain. *)
Variable MaxRoundsToKeepUnprocessedTransactions : Z.

(** The state of the loop of cleanTxsPoolsIfNeeded: the cleaner, the pools
    and numTxsCleaned. *)
Definition passState : Type := txsPoolsCleaner * pools * nat.

(** The body of the loop for the entry [hash ↦ currTxInfo]; [index] is the
    value that tpc.rounder.Index() has during this iteration. *)
Definition cleanOne (index : Z) (st : passState) (entry : string * txInfo) : passState :=
  let '(tpc, w, numTxsCleaned) := st in
  let '(hash, currTxInfo) := entry in
  let '(v, w) := storeGet w (txStore currTxInfo) hash in
  match v with
  | None => (setMapTxsRounds tpc (delete hash (mapTxsRounds tpc)), w, numTxsCleaned)
  | Some _ =>
    let roundDif := int64 (index - round currTxInfo) in
    if roundDif <=? MaxRoundsToKeepUnprocessedTransactions then (tpc, w, numTxsCleaned)
    else
      let w := storeRemove w (txStore currTxInfo) hash in
      (setMapTxsRounds tpc (delete hash (mapTxsRounds tpc)), w, S numTxsCleaned)
  end.

(** The entries in the order in which the loop visits them, each with the
    round of its visit: the rounder belongs to the rest of the node and may
    advance during a pass, [Index i] is the value of tpc.rounder.Index()
    during the i-th iteration. *)
Definition visits (Index : nat → Z) (order : list (string * txInfo))
  : list (Z * (string * txInfo)) :=
  imap (λ i entry, (Index i, entry)) order.

Definition cleanVisit (st : passState) (visit : Z * (string * txInfo)) : passState :=
  cleanOne visit.1 st visit.2.

(** func (tpc *txsPoolsCleaner) cleanTxsPoolsIfNeeded, for the iteration
    order [order] of the map.  Go leaves the order of a range over a map
    unspecified; the body deletes only the entry it is visiting, so every
    entry of the map is visited once.  The result is len(tpc.mapTxsRounds),
    together with the final state, which holds numTxsCleaned. *)
Definition cleanTxsPoolsIfNeededIn (order : list (string * txInfo))
    (Index : nat → Z) (tpc : txsPoolsCleaner) (w : pools) : nat * passState :=
  let st := foldl cleanVisit (tpc, w, 0%nat) (visits Index order) in
  (size (mapTxsRounds st.1.1), st).

(** The same, visiting the entries in the order of [map_to_list]. *)
Definition cleanTxsPoolsIfNeeded (Index : nat → Z) (tpc : txsPoolsCleaner) (w : pools)
  : nat * passState :=
  cleanTxsPoolsIfNeededIn (map_to_list (mapTxsRounds tpc)) Index tpc w.

(** *** One reaper pass, record by record *)

(** The sub-cache of the record still holds its hash. *)
Definition present (w : pools) (entry : string * txInfo) : bool :=
  bool_decide (is_Some (content w !! (txStore entry.2, entry.1))).

(** The record has outlived the threshold:
    roundDif > MaxRoundsToKeepUnprocessedTransactions. *)
Definition stale (index : Z) (entry : string * txInfo) : bool :=
  negb (int64 (index - round entry.2) <=? MaxRoundsToKeepUnprocessedTransactions).

(** The pass cleans the record: it is present and stale. *)
Definition cleaned (index : Z) (w : pools) (entry : string * txInfo) : bool :=
  present w entry && stale index entry.

Definition cleanedVisit (w : pools) (visit : Z * (string * txInfo)) : bool :=
  cleaned visit.1 w visit.2.

(** What the pass has not touched about [hash]: its pending record, its
    entries in the sub-caches, and the Remove calls made for it. *)
Definition sameAt (hash : string) (st st' : passState) : Prop :=
  mapTxsRounds st'.1.1 !! hash = mapTxsRounds st.1.1 !! hash
  ∧ (∀ s, content st'.1.2 !! (s, hash) = content st.1.2 !! (s, hash))
  ∧ (∀ s, CallRemove s hash ∈ storeCalls st'.1.2 ↔ CallRemove s hash ∈ storeCalls st.1.2).

Lemma filter_iff_in {A} (P1 P2 : A → Prop)
    `{!∀ x, Decision (P1 x), !∀ x, Decision (P2 x)} (l : list A) :
  (∀ x, x ∈ l → P1 x ↔ P2 x) → filter P1 l = filter P2 l.
Proof.
  induction l as [|a l IH]; intros Hiff; [done|].
  assert (filter P1 l = filter P2 l) as Hl.
  { apply IH. intros x Hx. apply Hiff. by right. }
  destruct (decide (P1 a)) as [Ha|Ha].
  - rewrite !filter_cons_True; [by rewrite Hl|by apply Hiff; [left|]|done].
  - rewrite !filter_cons_False; [done| |done].
    intros Ha'. apply Ha, Hiff; [by left|done].
Qed.

Lemma sameAt_refl hash st : sameAt hash st st.
Proof. done. Qed.

Lemma sameAt_trans hash st1 st2 st3 :
  sameAt hash st1 st2 → sameAt hash st2 st3 → sameAt hash st1 st3.
Proof.
  intros (Hm & Hc & Hr) (Hm' & Hc' & Hr'). split_and!.
  - congruence.
  - intros s. by rewrite Hc', Hc.
  - intros s. by rewrite Hr', Hr.
Qed.

(** The body of the loop in closed form. *)
Lemma cleanOne_spec index tpc w n hash info :
  cleanOne index (tpc, w, n) (hash, info)
  = (if present w (hash, info) && negb (stale index (hash, info)) then tpc
     else setMapTxsRounds tpc (delete hash (mapTxsRounds tpc)),
     MkPools (if cleaned index w (hash, info)
              then delete (txStore info, hash) (content w) else content w)
             (storeCalls w ++ CallGet (txStore info) hash
                :: if cleaned index w (hash, info)
                   then [CallRemove (txStore info) hash] else []),
     if cleaned index w (hash, info) then S n else n).
Proof.
  unfold cleanOne, cleaned, present, stale, storeGet, storeRemove. simpl.
  destruct (content w !! (txStore info, hash)) as [v|] eqn:E; simpl.
  - destruct (_ <=? _); simpl; [done|].
    by rewrite <- app_assoc.
  - done.
Qed.

Lemma cleanOne_other index st hash' info' hash :
  hash ≠ hash' → sameAt hash st (cleanOne index st (hash', info')).
Proof.
  intros Hne. destruct st as [[tpc w] n]. rewrite cleanOne_spec.
  split_and!; simpl.
  - destruct (_ && _); [done|]. simpl. by rewrite lookup_delete_ne.
  - intros s. destruct (cleaned _ _ _); [|done].
    rewrite lookup_delete_ne; [done|]. congruence.
  - intros s. rewrite elem_of_app, elem_of_cons.
    destruct (cleaned _ _ _); [rewrite list_elem_of_singleton|rewrite elem_of_nil].
    + split; [intros [?|[[=]|[= _ ?]]]|]; tauto.
    + split; [intros [?|[[=]|[]]]|]; tauto.
Qed.

Lemma foldl_cleanVisit_other (l : list (Z * (string * txInfo))) hash :
  ∀ st, hash ∉ l.*2.*1 → sameAt hash st (foldl cleanVisit st l).
Proof.
  induction l as [|[index [hash' info']] l IH]; intros st Hni; cbn [foldl].
  - apply sameAt_refl.
  - rewrite !fmap_cons, not_elem_of_cons in Hni. destruct Hni as [Hne Hni].
    eapply sameAt_trans; [by apply cleanOne_other|by apply IH].
Qed.

(** The number of cleanups is the number of records present and stale. *)
Lemma foldl_cleanVisit_count (l : list (Z * (string * txInfo))) :
  ∀ tpc w n, NoDup l.*2.*1 →
    (foldl cleanVisit (tpc, w, n) l).2
    = (n + length (filter (λ visit, cleanedVisit w visit = true) l))%nat.
Proof.
  induction l as [|[index [hash info]] l IH]; intros tpc w n Hnd; cbn [foldl].
  - simpl. lia.
  - rewrite !fmap_cons in Hnd. apply NoDup_cons in Hnd as [Hni Hnd].
    unfold cleanVisit at 2. cbn [fst snd].
    rewrite cleanOne_spec, IH by done.
    set (w' := MkPools _ _).
    assert (Hext : filter (λ visit, cleanedVisit w' visit = true) l
                   = filter (λ visit, cleanedVisit w visit = true) l).
    { apply filter_iff_in. intros [idx [h i]] Hin.
      assert (h ≠ hash) as Hne.
      { intros ->. apply Hni. apply list_elem_of_fmap. exists (hash, i).
        split; [done|]. apply list_elem_of_fmap. by exists (idx, (hash, i)). }
      unfold cleanedVisit, cleaned, present, w'; simpl.
      destruct (cleaned index w (hash, info)); [|done].
      rewrite lookup_delete_ne; [done|]. congruence. }
    rewrite Hext. rewrite filter_cons.
    change (cleanedVisit w (index, (hash, info))) with (cleaned index w (hash, info)).
    destruct (cleaned index w (hash, info)) eqn:E.
    + rewrite decide_True by done. simpl. lia.
    + rewrite decide_False by done. lia.
Qed.

(** The pass touches what concerns [hash] only when it visits its record. *)
Lemma foldl_cleanVisit_at (l : list (Z * (string * txInfo))) st index hash info :
  NoDup l.*2.*1 → (index, (hash, info)) ∈ l →
  ∃ st1, sameAt hash st st1
         ∧ sameAt hash (cleanOne index st1 (hash, info)) (foldl cleanVisit st l).
Proof.
  intros Hnd (l1 & l2 & ->)%list_elem_of_split.
  rewrite !fmap_app, !fmap_cons in Hnd. simpl in Hnd.
  apply NoDup_app in Hnd as (_ & Hl1 & Hl2).
  apply NoDup_cons in Hl2 as [Hl2 _].
  exists (foldl cleanVisit st l1). split.
  - apply foldl_cleanVisit_other. intros Hin. apply (Hl1 _ Hin). by left.
  - rewrite foldl_app. cbn [foldl]. by apply foldl_cleanVisit_other.
Qed.

Lemma visits_entries order : ∀ Index, (visits Index order).*2 = order.
Proof.
  unfold visits. induction order as [|entry order IH]; intros Index; [done|].
  rewrite imap_cons, fmap_cons. simpl. f_equal. apply (IH (Index ∘ S)).
Qed.

Lemma visits_lookup Index order i entry :
  order !! i = Some entry → (Index i, entry) ∈ visits Index order.
Proof.
  intros Hi. apply (list_elem_of_lookup_2 _ i). unfold visits.
  by rewrite list_lookup_imap, Hi.
Qed.

Lemma order_of_map (order : list (string * txInfo)) (m : gmap string txInfo) :
  order ≡ₚ map_to_list m →
  NoDup order.*1 ∧ ∀ hash info, (hash, info) ∈ order ↔ m !! hash = Some info.
Proof.
  intros Hp. split.
  - rewrite Hp. apply NoDup_fst_map_to_list.
  - intros hash info. rewrite Hp. apply elem_of_map_to_list.
Qed.

Lemma int64_small z : - 2 ^ 63 ≤ z < 2 ^ 63 → int64 z = z.
Proof. intros Hz. unfold int64. rewrite Z.mod_small; lia. Qed.

(** ** The reaper pass *)

(** C6.  In one reaper pass, whatever the order in which the pending map is
    visited, the record visited at the i-th iteration, if its hash is still
    in its sub-cache, is treated by its age
    roundDif = rounder.Index() - round, computed in int64 with the round of
    that iteration: when roundDif > MaxRoundsToKeepUnprocessedTransactions
    the hash is removed from the sub-cache by a Remove call and the record
    is deleted; when roundDif ≤ MaxRoundsToKeepUnprocessedTransactions the
    record stays as it was, no Remove call is made for the hash and its
    pooled entries are unchanged.  The number of cleanups counted by the pass
    is the number of records that are present and over the threshold, and
    the value returned is the size of the pending map that is left.  roundDif
    is the difference of the two rounds whenever that difference fits
    int64. *)
Theorem reaper_pass_present_record
    (order : list (string * txInfo)) (Index : nat → Z) (tpc : txsPoolsCleaner)
    (w : pools) (i : nat) (hash : string) (info : txInfo) (v : poolValue) :
  order ≡ₚ map_to_list (mapTxsRounds tpc) →
  order !! i = Some (hash, info) →
  content w !! (txStore info, hash) = Some v →
  let result := cleanTxsPoolsIfNeededIn order Index tpc w in
  let tpc' := result.2.1.1 in
  let w' := result.2.1.2 in
  let roundDif := int64 (Index i - round info) in
  mapTxsRounds tpc !! hash = Some info
  ∧ (MaxRoundsToKeepUnprocessedTransactions < roundDif →
     mapTxsRounds tpc' !! hash = None
     ∧ content w' !! (txStore info, hash) = None
     ∧ CallRemove (txStore info) hash ∈ storeCalls w'
     ∧ cleaned (Index i) w (hash, info) = true)
  ∧ (roundDif ≤ MaxRoundsToKeepUnprocessedTransactions →
     mapTxsRounds tpc' !! hash = Some info
     ∧ (∀ s, content w' !! (s, hash) = content w !! (s, hash))
     ∧ (∀ s, CallRemove s hash ∈ storeCalls w' → CallRemove s hash ∈ storeCalls w)
     ∧ cleaned (Index i) w (hash, info) = false)
  ∧ result.2.2
    = length (filter (λ visit, cleanedVisit w visit = true) (visits Index order))
  ∧ result.1 = size (mapTxsRounds tpc')
  ∧ (- 2 ^ 63 ≤ Index i - round info < 2 ^ 63 → roundDif = Index i - round info).
Proof.
  intros Hp Hi Hc. cbv zeta. unfold cleanTxsPoolsIfNeededIn. cbn [fst snd].
  set (roundDif := int64 (Index i - round info)).
  destruct (order_of_map order _ Hp) as [Hnd Hin].
  assert (Hm : mapTxsRounds tpc !! hash = Some info).
  { apply Hin. by apply (list_elem_of_lookup_2 _ i). }
  assert (Hnd' : NoDup (visits Index order).*2.*1) by (by rewrite visits_entries).
  destruct (foldl_cleanVisit_at (visits Index order) (tpc, w, 0%nat) (Index i) hash info
              Hnd' (visits_lookup Index order i _ Hi))
    as ([[tpc1 w1] n1] & (Hm1 & Hc1 & Hr1) & Hafter).
  simpl in Hm1, Hc1, Hr1.
  rewrite cleanOne_spec in Hafter.
  pose proof (foldl_cleanVisit_count (visits Index order) tpc w 0%nat Hnd') as Hcount.
  set (st' := foldl cleanVisit (tpc, w, 0%nat) (visits Index order)) in *.
  destruct Hafter as (Hm2 & Hc2 & Hr2). simpl in Hm2, Hc2, Hr2.
  assert (Hpres : present w (hash, info) = true).
  { unfold present; simpl. rewrite Hc. by apply bool_decide_eq_true_2. }
  assert (Hpres1 : present w1 (hash, info) = true).
  { unfold present; simpl. rewrite Hc1, Hc. by apply bool_decide_eq_true_2. }
  unfold cleaned in Hm2, Hc2, Hr2 |- *. rewrite Hpres1 in Hm2, Hc2, Hr2.
  rewrite Hpres. simpl in Hm2, Hc2, Hr2 |- *.
  unfold stale in Hm2, Hc2, Hr2 |- *. simpl in Hm2, Hc2, Hr2 |- *.
  fold roundDif in Hm2, Hc2, Hr2 |- *.
  split_and!.
  - done.
  - intros Hlt. apply Z.leb_gt in Hlt. rewrite Hlt in Hm2, Hc2, Hr2 |- *.
    simpl in Hm2, Hc2, Hr2.
    split_and!; [|  |  |done].
    + rewrite Hm2. apply lookup_delete_eq.
    + rewrite Hc2. apply lookup_delete_eq.
    + apply Hr2. rewrite elem_of_app. right. right. by left.
  - intros Hle. apply Z.leb_le in Hle. rewrite Hle in Hm2, Hc2, Hr2 |- *.
    simpl in Hm2, Hc2, Hr2.
    split_and!; [| | |done].
    + by rewrite Hm2, Hm1.
    + intros s. by rewrite Hc2, Hc1.
    + intros s Hs. apply Hr1. apply Hr2 in Hs.
      rewrite elem_of_app, list_elem_of_singleton in Hs. by destruct Hs as [?|[=]].
  - rewrite Hcount. done.
  - done.
  - apply int64_small.
Qed.

(** C7.  In one reaper pass, whatever the order in which the pending map is
    visited and whatever the rounds read during the pass, a record whose hash
    is no longer in its sub-cache is deleted from the pending map; the pass
    makes no Remove call for that hash, leaves every pooled entry of that
    hash as it was, and does not count the record: the number of cleanups is
    the number of records present and over the threshold, and this record is
    not one of them. *)
Theorem reaper_pass_absent_record
    (order : list (string * txInfo)) (Index : nat → Z) (tpc : txsPoolsCleaner)
    (w : pools) (hash : string) (info : txInfo) :
  order ≡ₚ map_to_list (mapTxsRounds tpc) →
  mapTxsRounds tpc !! hash = Some info →
  content w !! (txStore info, hash) = None →
  let result := cleanTxsPoolsIfNeededIn order Index tpc w in
  let tpc' := result.2.1.1 in
  let w' := result.2.1.2 in
  mapTxsRounds tpc' !! hash = None
  ∧ (∀ s, CallRemove s hash ∈ storeCalls w' → CallRemove s hash ∈ storeCalls w)
  ∧ (∀ s, content w' !! (s, hash) = content w !! (s, hash))
  ∧ (∀ index, cleaned index w (hash, info) = false)
  ∧ result.2.2
    = length (filter (λ visit, cleanedVisit w visit = true) (visits Index order)).
Proof.
  intros Hp Hm Hc. cbv zeta. unfold cleanTxsPoolsIfNeededIn. cbn [fst snd].
  destruct (order_of_map order _ Hp) as [Hnd Hin].
  apply Hin, list_elem_of_lookup in Hm as [i Hi].
  assert (Hnd' : NoDup (visits Index order).*2.*1) by (by rewrite visits_entries).
  destruct (foldl_cleanVisit_at (visits Index order) (tpc, w, 0%nat) (Index i) hash info
              Hnd' (visits_lookup Index order i _ Hi))
    as ([[tpc1 w1] n1] & (Hm1 & Hc1 & Hr1) & Hafter).
  simpl in Hm1, Hc1, Hr1.
  rewrite cleanOne_spec in Hafter.
  pose proof (foldl_cleanVisit_count (visits Index order) tpc w 0%nat Hnd') as Hcount.
  set (st' := foldl cleanVisit (tpc, w, 0%nat) (visits Index order)) in *.
  destruct Hafter as (Hm2 & Hc2 & Hr2). simpl in Hm2, Hc2, Hr2.
  assert (Hpres : present w (hash, info) = false).
  { unfold present; simpl. rewrite Hc. apply bool_decide_eq_false_2. by intros [? ?]. }
  assert (Hpres1 : present w1 (hash, info) = false).
  { unfold present; simpl. rewrite Hc1, Hc. apply bool_decide_eq_false_2.
    by intros [? ?]. }
  unfold cleaned in Hm2, Hc2, Hr2 |- *. rewrite Hpres1 in Hm2, Hc2, Hr2.
  rewrite Hpres. simpl in Hm2, Hc2, Hr2 |- *.
  split_and!.
  - rewrite Hm2. apply lookup_delete_eq.
  - intros s Hs. apply Hr1. apply Hr2 in Hs.
    rewrite elem_of_app, list_elem_of_singleton in Hs. by destruct Hs as [?|[=]].
  - intros s. by rewrite Hc2, Hc1.
  - done.
  - rewrite Hcount. done.
Qed.

(** ** The whole pass *)

Lemma present_sameAt hash info (st st1 : passState) :
  sameAt hash st st1 → present st1.1.2 (hash, info) = present st.1.2 (hash, info).
Proof. intros (_ & Hc & _). unfold present. cbn [fst snd]. by rewrite Hc. Qed.

(** What a pass does about a hash that has a pending record. *)
Lemma pass_tracked order Index tpc w i hash info :
  order ≡ₚ map_to_list (mapTxsRounds tpc) →
  order !! i = Some (hash, info) →
  let st' := (cleanTxsPoolsIfNeededIn order Index tpc w).2 in
  mapTxsRounds st'.1.1 !! hash
  = (if present w (hash, info) && negb (stale (Index i) (hash, info))
     then Some info else None)
  ∧ (∀ s, content st'.1.2 !! (s, hash)
          = if cleaned (Index i) w (hash, info) && bool_decide (s = txStore info)
            then None else content w !! (s, hash))
  ∧ (∀ s, CallRemove s hash ∈ storeCalls st'.1.2
          ↔ CallRemove s hash ∈ storeCalls w
            ∨ (cleaned (Index i) w (hash, info) = true ∧ s = txStore info)).
Proof.
  intros Hp Hi. cbv zeta. unfold cleanTxsPoolsIfNeededIn. cbn [fst snd].
  destruct (order_of_map order _ Hp) as [Hnd Hin].
  assert (Hm : mapTxsRounds tpc !! hash = Some info).
  { apply Hin. by apply (list_elem_of_lookup_2 _ i). }
  assert (Hnd' : NoDup (visits Index order).*2.*1) by (by rewrite visits_entries).
  destruct (foldl_cleanVisit_at (visits Index order) (tpc, w, 0%nat) (Index i) hash info
              Hnd' (visits_lookup Index order i _ Hi))
    as ([[tpc1 w1] n1] & Hsame & Hafter).
  pose proof (present_sameAt hash info _ _ Hsame) as Hpres. cbn [fst snd] in Hpres.
  destruct Hsame as (Hm1 & Hc1 & Hr1). cbn [fst snd] in Hm1, Hc1, Hr1.
  rewrite cleanOne_spec in Hafter.
  set (st' := foldl cleanVisit (tpc, w, 0%nat) (visits Index order)) in *.
  destruct Hafter as (Hm2 & Hc2 & Hr2). cbn [fst snd content storeCalls] in Hm2, Hc2, Hr2.
  unfold cleaned in *. rewrite Hpres in Hm2, Hc2, Hr2.
  split_and!.
  - rewrite Hm2.
    destruct (present w (hash, info) && negb (stale (Index i) (hash, info))).
    + by rewrite Hm1.
    + cbn [mapTxsRounds setMapTxsRounds]. apply lookup_delete_eq.
  - intros s. rewrite Hc2.
    destruct (present w (hash, info) && stale (Index i) (hash, info)); cbn [andb].
    + case_bool_decide as Hs.
      * subst s. apply lookup_delete_eq.
      * rewrite lookup_delete_ne by congruence. apply Hc1.
    + apply Hc1.
  - intros s. rewrite Hr2, elem_of_app, elem_of_cons, Hr1.
    destruct (present w (hash, info) && stale (Index i) (hash, info)).
    + rewrite list_elem_of_singleton. split.
      * intros [?|[[=]|[= ->]]]; [by left|by right].
      * intros [?|[_ ->]]; [by left|by right; right].
    + rewrite elem_of_nil. split.
      * intros [?|[[=]|[]]]; by left.
      * intros [?|[[=] _]]; by left.
Qed.

(** A pass does nothing about a hash that has no pending record. *)
Lemma pass_untracked order Index tpc w hash :
  order ≡ₚ map_to_list (mapTxsRounds tpc) →
  mapTxsRounds tpc !! hash = None →
  sameAt hash (tpc, w, 0%nat) (cleanTxsPoolsIfNeededIn order Index tpc w).2.
Proof.
  intros Hp Hm. unfold cleanTxsPoolsIfNeededIn. cbn [snd].
  destruct (order_of_map order _ Hp) as [Hnd Hin].
  apply foldl_cleanVisit_other. rewrite visits_entries.
  intros ([h info] & -> & Hin')%list_elem_of_fmap.
  apply Hin in Hin'. cbn [fst] in Hm. congruence.
Qed.

Lemma cleanOne_fields index st entry m :
  setMapTxsRounds (cleanOne index st entry).1.1 m = setMapTxsRounds st.1.1 m.
Proof.
  destruct st as [[tpc w] n], entry as [hash info]. rewrite cleanOne_spec.
  cbn [fst snd]. by destruct (_ && _).
Qed.

Lemma foldl_cleanVisit_fields (l : list (Z * (string * txInfo))) m :
  ∀ st, setMapTxsRounds (foldl cleanVisit st l).1.1 m = setMapTxsRounds st.1.1 m.
Proof.
  induction l as [|visit l IH]; intros st; cbn [foldl]; [done|].
  rewrite IH. apply cleanOne_fields.
Qed.

(** The calls of a pass on the sub-caches: one Get for every visit, in the
    order of the visits. *)
Lemma foldl_cleanVisit_calls (l : list (Z * (string * txInfo))) :
  ∀ st, ∃ calls,
    storeCalls (foldl cleanVisit st l).1.2 = storeCalls st.1.2 ++ calls
    ∧ filter (λ c, isGet c = true) calls = getOf <$> l.*2.
Proof.
  induction l as [|[index [hash info]] l IH]; intros [[tpc w] n]; cbn [foldl].
  - exists []. by rewrite app_nil_r.
  - unfold cleanVisit at 2. cbn [fst snd]. rewrite cleanOne_spec.
    set (st1 := (_, _, _)).
    destruct (IH st1) as (calls & -> & Hg).
    unfold st1. cbn [fst snd storeCalls].
    eexists. rewrite <- app_assoc. split; [reflexivity|].
    rewrite !fmap_cons. cbn [app].
    rewrite filter_cons_True by done. f_equal.
    destruct (cleaned index w (hash, info)); cbn [app]; [|done].
    by rewrite filter_cons_False.
Qed.

Lemma stale_spec index entry :
  stale index entry = true
  ↔ MaxRoundsToKeepUnprocessedTransactions < int64 (index - round entry.2).
Proof.
  unfold stale. rewrite negb_true_iff. apply Z.leb_gt.
Qed.

Lemma present_spec w entry :
  present w entry = true ↔ is_Some (content w !! (txStore entry.2, entry.1)).
Proof. unfold present. apply bool_decide_eq_true. Qed.

Lemma kept_spec w index hash info :
  present w (hash, info) && negb (stale index (hash, info)) = true
  ↔ is_Some (content w !! (txStore info, hash))
    ∧ int64 (index - round info) ≤ MaxRoundsToKeepUnprocessedTransactions.
Proof.
  rewrite andb_true_iff, present_spec, negb_true_iff.
  unfold stale. rewrite negb_false_iff. cbn [fst snd]. by rewrite Z.leb_le.
Qed.

Lemma cleaned_spec w index hash info :
  cleaned index w (hash, info) = true
  ↔ is_Some (content w !! (txStore info, hash))
    ∧ MaxRoundsToKeepUnprocessedTransactions < int64 (index - round info).
Proof.
  unfold cleaned. by rewrite andb_true_iff, present_spec, stale_spec.
Qed.

(** X12.  The pending map after a pass.  Whatever the order of the visits and the
    rounds read during the pass, the pass only deletes records: the pending
    map it leaves is a part of the one it found, a record is left exactly
    when its hash is still in its sub-cache and its age at its visit is
    within the threshold, and then the pass has not touched its pooled entry.
    The value returned is the number of records left, which is at most the
    number found; nothing else in the cleaner is changed. *)
Theorem reaper_pass_pending_map
    (order : list (string * txInfo)) (Index : nat → Z) (tpc : txsPoolsCleaner)
    (w : pools) :
  order ≡ₚ map_to_list (mapTxsRounds tpc) →
  let result := cleanTxsPoolsIfNeededIn order Index tpc w in
  let tpc' := result.2.1.1 in
  let w' := result.2.1.2 in
  mapTxsRounds tpc' ⊆ mapTxsRounds tpc
  ∧ (∀ i hash info, order !! i = Some (hash, info) →
       (mapTxsRounds tpc' !! hash = Some info
        ↔ is_Some (content w !! (txStore info, hash))
          ∧ int64 (Index i - round info) ≤ MaxRoundsToKeepUnprocessedTransactions)
       ∧ (mapTxsRounds tpc' !! hash = None
          ↔ content w !! (txStore info, hash) = None
            ∨ MaxRoundsToKeepUnprocessedTransactions < int64 (Index i - round info)))
  ∧ (∀ hash info, mapTxsRounds tpc' !! hash = Some info →
       is_Some (content w' !! (txStore info, hash))
       ∧ ∀ s, content w' !! (s, hash) = content w !! (s, hash))
  ∧ result.1 = size (mapTxsRounds tpc')
  ∧ (result.1 ≤ size (mapTxsRounds tpc))%nat
  ∧ ∀ m, setMapTxsRounds tpc' m = setMapTxsRounds tpc m.
Proof.
  intros Hp. cbv zeta.
  destruct (order_of_map order _ Hp) as [Hnd Hin].
  assert (Hsub : mapTxsRounds (cleanTxsPoolsIfNeededIn order Index tpc w).2.1.1
                 ⊆ mapTxsRounds tpc).
  { apply map_subseteq_spec. intros hash info Hl.
    destruct (mapTxsRounds tpc !! hash) as [info0|] eqn:Hm.
    - apply Hin, list_elem_of_lookup in Hm as [i Hi].
      destruct (pass_tracked order Index tpc w i hash info0 Hp Hi) as (Hm' & _).
      rewrite Hm' in Hl. destruct (_ && _); congruence.
    - destruct (pass_untracked order Index tpc w hash Hp Hm) as (Hm' & _).
      cbn [fst snd] in Hm'. congruence. }
  split_and!.
  - done.
  - intros i hash info Hi.
    destruct (pass_tracked order Index tpc w i hash info Hp Hi) as (Hm' & _).
    rewrite Hm'. pose proof (kept_spec w (Index i) hash info) as Hk.
    destruct (present w (hash, info) && negb (stale (Index i) (hash, info))).
    + split; [split; [intros _; by apply Hk|done]|].
      split; [done|]. destruct Hk as [Hk _]. destruct (Hk eq_refl) as [[v Hv] Hle].
      intros [?|?]; [congruence|lia].
    + split; [split; [done|intros H; by apply Hk in H]|].
      split; [|done]. intros _.
      destruct (content w !! (txStore info, hash)) as [v|] eqn:Hc; [|by left].
      right. apply Z.lt_nge. intros Hle. destruct Hk as [_ Hk].
      by discriminate Hk.
  - intros hash info Hl.
    assert (Hm : mapTxsRounds tpc !! hash = Some info).
    { by apply (lookup_weaken _ _ _ _ Hl). }
    apply Hin, list_elem_of_lookup in Hm as [i Hi].
    destruct (pass_tracked order Index tpc w i hash info Hp Hi) as (Hm' & Hc' & _).
    rewrite Hm' in Hl.
    destruct (present w (hash, info) && negb (stale (Index i) (hash, info))) eqn:Hk;
      [|done].
    apply andb_true_iff in Hk as [Hpres Hst]. apply negb_true_iff in Hst.
    assert (Hcl : cleaned (Index i) w (hash, info) = false).
    { unfold cleaned. by rewrite Hst, andb_false_r. }
    rewrite Hcl in Hc'. cbn [andb] in Hc'.
    split; [|done]. rewrite Hc'. by apply present_spec in Hpres.
  - done.
  - by apply map_subseteq_size.
  - intros m. unfold cleanTxsPoolsIfNeededIn. cbn [fst snd].
    apply (foldl_cleanVisit_fields _ m (tpc, w, 0%nat)).
Qed.

(** X13.  The pools after a pass.  The pass only removes entries from the
    sub-caches: an entry that it removes is the entry, in the sub-cache
    recorded for it, of a hash whose pending record was present and over the
    threshold at its visit; a hash without a pending record keeps all its
    entries and gets no Remove call.  The calls of the pass are appended to
    the calls made before, and the Get calls among them are one for each
    pending record, in the order of the visits. *)
Theorem reaper_pass_pools_frame
    (order : list (string * txInfo)) (Index : nat → Z) (tpc : txsPoolsCleaner)
    (w : pools) :
  order ≡ₚ map_to_list (mapTxsRounds tpc) →
  let result := cleanTxsPoolsIfNeededIn order Index tpc w in
  let w' := result.2.1.2 in
  content w' ⊆ content w
  ∧ (∀ s hash, content w' !! (s, hash) ≠ content w !! (s, hash) →
       ∃ i info, order !! i = Some (hash, info) ∧ s = txStore info
                 ∧ is_Some (content w !! (s, hash))
                 ∧ content w' !! (s, hash) = None
                 ∧ CallRemove s hash ∈ storeCalls w'
                 ∧ MaxRoundsToKeepUnprocessedTransactions
                   < int64 (Index i - round info))
  ∧ (∀ s hash, mapTxsRounds tpc !! hash = None →
       content w' !! (s, hash) = content w !! (s, hash)
       ∧ (CallRemove s hash ∈ storeCalls w' ↔ CallRemove s hash ∈ storeCalls w))
  ∧ ∃ calls, storeCalls w' = storeCalls w ++ calls
             ∧ filter (λ c, isGet c = true) calls = getOf <$> order.
Proof.
  intros Hp. cbv zeta.
  destruct (order_of_map order _ Hp) as [Hnd Hin].
  assert (Hchange : ∀ s hash,
    content (cleanTxsPoolsIfNeededIn order Index tpc w).2.1.2 !! (s, hash)
    ≠ content w !! (s, hash) →
    ∃ i info, order !! i = Some (hash, info) ∧ s = txStore info
              ∧ is_Some (content w !! (s, hash))
              ∧ content (cleanTxsPoolsIfNeededIn order Index tpc w).2.1.2 !! (s, hash)
                = None
              ∧ CallRemove s hash
                ∈ storeCalls (cleanTxsPoolsIfNeededIn order Index tpc w).2.1.2
              ∧ MaxRoundsToKeepUnprocessedTransactions < int64 (Index i - round info)).
  { intros s hash Hne.
    destruct (mapTxsRounds tpc !! hash) as [info|] eqn:Hm.
    - apply Hin, list_elem_of_lookup in Hm as [i Hi].
      destruct (pass_tracked order Index tpc w i hash info Hp Hi) as (_ & Hc' & Hr').
      exists i, info. rewrite Hc' in Hne |- *. rewrite Hr'.
      destruct (cleaned (Index i) w (hash, info)) eqn:Hcl; [|done].
      cbn [andb] in Hne |- *. case_bool_decide as Hs; [|done]. subst s.
      apply cleaned_spec in Hcl as [Hpres Hst].
      split_and!; try done. by right.
    - destruct (pass_untracked order Index tpc w hash Hp Hm) as (_ & Hc' & _).
      cbn [fst snd] in Hc'. by rewrite Hc' in Hne. }
  split_and!.
  - apply map_subseteq_spec. intros [s hash] v Hl.
    destruct (decide (content (cleanTxsPoolsIfNeededIn order Index tpc w).2.1.2
                        !! (s, hash) = content w !! (s, hash))) as [He|Hne].
    + by rewrite <- He.
    + destruct (Hchange s hash Hne) as (i & info & _ & _ & _ & Hnone & _). congruence.
  - done.
  - intros s hash Hm.
    destruct (pass_untracked order Index tpc w hash Hp Hm) as (_ & Hc' & Hr').
    cbn [fst snd] in Hc', Hr'. done.
  - unfold cleanTxsPoolsIfNeededIn. cbn [fst snd].
    destruct (foldl_cleanVisit_calls (visits Index order) (tpc, w, 0%nat))
      as (calls & Hcalls & Hg).
    exists calls. rewrite visits_entries in Hg. cbn [fst snd] in Hcalls. done.
Qed.

Lemma filter_none {A} (P : A → Prop) `{!∀ x, Decision (P x)} (l : list A) :
  (∀ x, x ∈ l → ¬ P x) → filter P l = [].
Proof.
  induction l as [|a l IH]; intros Hno; [done|].
  rewrite filter_cons_False by (apply Hno; by left).
  apply IH. intros x Hx. apply Hno. by right.
Qed.

Lemma visits_elem Index order index entry :
  (index, entry) ∈ visits Index order → ∃ i, order !! i = Some entry ∧ index = Index i.
Proof.
  intros [i Hi]%list_elem_of_lookup. unfold visits in Hi.
  rewrite list_lookup_imap in Hi. destruct (order !! i) as [e|] eqn:He; [|done].
  injection Hi as <- <-. by exists i.
Qed.

(** X14.  A second pass at the same round finds nothing to do.  After a pass
    during which the rounder stays at the round r, another pass at the round
    r, in any order, deletes no pending record, removes nothing from the
    sub-caches, counts no cleanup and returns the same number. *)
Theorem reaper_pass_idempotent
    (order order2 : list (string * txInfo)) (r : Z) (tpc : txsPoolsCleaner)
    (w : pools) :
  order ≡ₚ map_to_list (mapTxsRounds tpc) →
  order2
  ≡ₚ map_to_list (mapTxsRounds (cleanTxsPoolsIfNeededIn order (λ _, r) tpc w).2.1.1) →
  let first := cleanTxsPoolsIfNeededIn order (λ _, r) tpc w in
  let second := cleanTxsPoolsIfNeededIn order2 (λ _, r) first.2.1.1 first.2.1.2 in
  mapTxsRounds second.2.1.1 = mapTxsRounds first.2.1.1
  ∧ content second.2.1.2 = content first.2.1.2
  ∧ second.2.2 = 0%nat
  ∧ second.1 = first.1.
Proof.
  intros Hp Hp2. cbv zeta.
  set (first := cleanTxsPoolsIfNeededIn order (λ _, r) tpc w) in *.
  set (tpc1 := first.2.1.1) in *. set (w1 := first.2.1.2) in *.
  destruct (order_of_map order _ Hp) as [Hnd Hin].
  destruct (order_of_map order2 _ Hp2) as [Hnd2 Hin2].
  assert (Hkept : ∀ hash info, mapTxsRounds tpc1 !! hash = Some info →
            present w1 (hash, info) = true ∧ stale r (hash, info) = false).
  { intros hash info Hl.
    destruct (mapTxsRounds tpc !! hash) as [info0|] eqn:Hm.
    - apply Hin, list_elem_of_lookup in Hm as [i Hi].
      destruct (pass_tracked order (λ _, r) tpc w i hash info0 Hp Hi) as (Hm' & Hc' & _).
      fold first tpc1 w1 in Hm', Hc'. rewrite Hm' in Hl.
      destruct (present w (hash, info0) && negb (stale r (hash, info0))) eqn:Hk; [|done].
      injection Hl as ->.
      apply andb_true_iff in Hk as [Hpres Hst]. apply negb_true_iff in Hst.
      split; [|done]. apply present_spec. cbn [fst snd]. rewrite Hc'.
      unfold cleaned. rewrite Hst, andb_false_r. cbn [andb].
      by apply present_spec in Hpres.
    - destruct (pass_untracked order (λ _, r) tpc w hash Hp Hm) as (Hm' & _).
      fold first tpc1 in Hm'. cbn [fst snd] in Hm'. congruence. }
  assert (Hmap : mapTxsRounds (cleanTxsPoolsIfNeededIn order2 (λ _, r) tpc1 w1).2.1.1
                 = mapTxsRounds tpc1).
  { apply map_eq. intros hash.
    destruct (mapTxsRounds tpc1 !! hash) as [info|] eqn:Hm.
    - destruct (Hkept _ _ Hm) as [Hpres Hst].
      apply Hin2, list_elem_of_lookup in Hm as [i Hi].
      destruct (pass_tracked order2 (λ _, r) tpc1 w1 i hash info Hp2 Hi) as (Hm' & _).
      by rewrite Hm', Hpres, Hst.
    - destruct (pass_untracked order2 (λ _, r) tpc1 w1 hash Hp2 Hm) as (Hm' & _).
      cbn [fst snd] in Hm'. congruence. }
  split_and!.
  - done.
  - apply map_eq. intros [s hash].
    destruct (mapTxsRounds tpc1 !! hash) as [info|] eqn:Hm.
    + destruct (Hkept _ _ Hm) as [Hpres Hst].
      apply Hin2, list_elem_of_lookup in Hm as [i Hi].
      destruct (pass_tracked order2 (λ _, r) tpc1 w1 i hash info Hp2 Hi) as (_ & Hc' & _).
      rewrite Hc'. unfold cleaned. by rewrite Hst, andb_false_r.
    + destruct (pass_untracked order2 (λ _, r) tpc1 w1 hash Hp2 Hm) as (_ & Hc' & _).
      cbn [fst snd] in Hc'. apply Hc'.
  - unfold cleanTxsPoolsIfNeededIn. cbn [fst snd].
    rewrite foldl_cleanVisit_count by (by rewrite visits_entries).
    cbn [Nat.add]. rewrite filter_none; [done|].
    intros [index [hash info]] Hv.
    apply visits_elem in Hv as (i & Hi & ->).
    apply list_elem_of_lookup_2, Hin2, Hkept in Hi as [_ Hst].
    unfold cleanedVisit, cleaned. cbn [fst snd]. rewrite Hst, andb_false_r. done.
  - change (size (mapTxsRounds (cleanTxsPoolsIfNeededIn order2 (λ _, r) tpc1 w1).2.1.1)
            = size (mapTxsRounds tpc1)).
    by rewrite Hmap.
Qed.

End Reaper.

(** *** Shards of an unsigned transaction *)


Lemma getShardFromAddress_spec tpc address :
  getShardFromAddress tpc address
  = (if bool_decide (address = emptyAddress tpc)
     then SelfId (shardCoordinator tpc)
     else ComputeId (shardCoordinator tpc) address, None).
Proof. unfold getShardFromAddress. by case_bool_decide. Qed.


(** ** Scenarios *)

Lemma exampleCleaner_new :
  NewTxsPoolsCleaner (Some 2%nat)
    (Some (MkPoolsHolder (Some examplePool) (Some examplePool) (Some examplePool)))
    (Some ()) (Some exampleCoordinator)
  = inr exampleCleaner.
Proof. reflexivity. Qed.

Lemma cleanerWithH_pending : mapTxsRounds cleanerWithH = {[ "H" := infoH ]}.
Proof. vm_compute. reflexivity. Qed.

(** Scenario 2 of the spec: at round 106 the pass removes "H" from the pool
    and the pending map is left empty. *)
Lemma reaper_pass_present_record_witness :
  let result := cleanTxsPoolsIfNeeded 5 (λ _, 106) cleanerWithH poolsWithH in
  mapTxsRounds result.2.1.1 !! "H" = None
  ∧ content result.2.1.2 !! (7%nat, "H") = None
  ∧ CallRemove 7%nat "H" ∈ storeCalls result.2.1.2
  ∧ result.1 = 0%nat.
Proof.
  pose proof (reaper_pass_present_record 5 (map_to_list (mapTxsRounds cleanerWithH))
                (λ _, 106) cleanerWithH poolsWithH 0%nat "H" infoH (WrappedTransaction 0 1)
                (reflexivity _) eq_refl eq_refl) as (_ & Hstale & _ & _ & Hsize & _).
  destruct Hstale as (Hm & Hc & Hr & _); [vm_compute; reflexivity|].
  cbv zeta. unfold cleanTxsPoolsIfNeeded.
  split_and!; [exact Hm|exact Hc|exact Hr|].
  rewrite Hsize. vm_compute. reflexivity.
Defined.

(** Scenario 3 of the spec: "H" was taken out of the pool by someone else;
    the pass at round 104 drops the record and leaves the pool alone. *)
Lemma reaper_pass_absent_record_witness :
  let result := cleanTxsPoolsIfNeeded 5 (λ _, 104) cleanerWithH poolsWithoutH in
  mapTxsRounds result.2.1.1 !! "H" = None
  ∧ (∀ s, CallRemove s "H" ∈ storeCalls result.2.1.2 → False)
  ∧ result.2.2 = 0%nat.
Proof.
  pose proof (reaper_pass_absent_record 5 (map_to_list (mapTxsRounds cleanerWithH))
                (λ _, 104) cleanerWithH poolsWithoutH "H" infoH
                (reflexivity _) eq_refl eq_refl) as (Hm & Hr & _ & _ & Hn).
  cbv zeta. unfold cleanTxsPoolsIfNeeded.
  split_and!; [exact Hm| |].
  - intros s Hs. apply Hr in Hs. simpl in Hs. by apply elem_of_nil in Hs.
  - rewrite Hn. vm_compute. reflexivity.
Defined.


(** ** The constructor *)

(** Decides a statement about which collaborators are nil. *)
Ltac nil_checks :=
  repeat (intros ? || split);
  repeat match goal with
         | H : _ ∧ _ |- _ => destruct H
         | H : ∃ _, _ |- _ => destruct H
         end;
  try discriminate; try congruence;
  repeat match goal with
         | H : Some _ = Some _ |- _ => injection H as <-
         end;
  cbn in *; try discriminate; try congruence;
  repeat esplit; try done.

(** X15.  NewTxsPoolsCleaner returns a cleaner exactly when the converter, the
    pools holder, its three pools, the rounder and the coordinator are all
    non-nil.  The cleaner then has an empty pending map, the three pools of
    the holder, the coordinator, and an emptyAddress of Len() zero bytes.
    Otherwise the error is the one of the first nil collaborator, in the
    order converter, holder, transactions pool, reward pool, unsigned pool,
    rounder, coordinator. *)
Theorem NewTxsPoolsCleaner_checks
    (converter : option nat) (dataPool : option PoolsHolder) (rounder : option unit)
    (coordinator : option Coordinator) :
  ((∃ tpc, NewTxsPoolsCleaner converter dataPool rounder coordinator = inr tpc)
   ↔ is_Some converter
     ∧ (∃ dp, dataPool = Some dp ∧ is_Some (Transactions dp)
              ∧ is_Some (RewardTransactions dp) ∧ is_Some (UnsignedTransactions dp))
     ∧ is_Some rounder ∧ is_Some coordinator)
  ∧ (∀ tpc, NewTxsPoolsCleaner converter dataPool rounder coordinator = inr tpc →
       mapTxsRounds tpc = ∅
       ∧ Some (addressPubkeyConverterLen tpc) = converter
       ∧ emptyAddress tpc = replicate (addressPubkeyConverterLen tpc) Byte.x00
       ∧ Some (shardCoordinator tpc) = coordinator
       ∧ ∃ dp, dataPool = Some dp
               ∧ Transactions dp = Some (blockTransactionsPool tpc)
               ∧ RewardTransactions dp = Some (rewardTransactionsPool tpc)
               ∧ UnsignedTransactions dp = Some (unsignedTransactionsPool tpc))
  ∧ (∀ e, NewTxsPoolsCleaner converter dataPool rounder coordinator = inl e →
       (e = ErrNilPubkeyConverter ↔ converter = None)
       ∧ (e = ErrNilPoolsHolder ↔ is_Some converter ∧ dataPool = None)
       ∧ (e = ErrNilTransactionPool
          ↔ is_Some converter ∧ ∃ dp, dataPool = Some dp ∧ Transactions dp = None)
       ∧ (e = ErrNilRewardTxDataPool
          ↔ is_Some converter
            ∧ ∃ dp, dataPool = Some dp ∧ is_Some (Transactions dp)
                    ∧ RewardTransactions dp = None)
       ∧ (e = ErrNilUnsignedTxDataPool
          ↔ is_Some converter
            ∧ ∃ dp, dataPool = Some dp ∧ is_Some (Transactions dp)
                    ∧ is_Some (RewardTransactions dp)
                    ∧ UnsignedTransactions dp = None)
       ∧ (e = ErrNilRounder
          ↔ is_Some converter
            ∧ (∃ dp, dataPool = Some dp ∧ is_Some (Transactions dp)
                     ∧ is_Some (RewardTransactions dp)
                     ∧ is_Some (UnsignedTransactions dp))
            ∧ rounder = None)
       ∧ (e = ErrNilShardCoordinator
          ↔ is_Some converter
            ∧ (∃ dp, dataPool = Some dp ∧ is_Some (Transactions dp)
                     ∧ is_Some (RewardTransactions dp)
                     ∧ is_Some (UnsignedTransactions dp))
            ∧ is_Some rounder ∧ coordinator = None)
       ∧ e ≠ ErrWrongTypeAssertion).
Proof.
  unfold NewTxsPoolsCleaner, is_Some.
  destruct converter as [len|], dataPool as [[[txs|] [rewards|] [unsigned|]]|],
    rounder as [[]|], coordinator as [coord|];
    cbn [Transactions RewardTransactions UnsignedTransactions];
    (split_and!;
     [nil_checks|intros tpc [= <-]; cbn; nil_checks|intros e [= <-]; nil_checks]).
Qed.

(** ** The callbacks *)

Lemma extendsAt_refl key tpc : extendsAt key tpc tpc.
Proof. done. Qed.

Lemma processReceivedTx_extends ShardCacherIdentifier index tpc key sender receiver txType :
  extendsAt (Some key) tpc
    (processReceivedTx ShardCacherIdentifier index tpc key sender receiver txType).
Proof.
  unfold processReceivedTx.
  destruct (mapTxsRounds tpc !! key) eqn:Hk; [apply extendsAt_refl|].
  destruct (getTransactionPool tpc txType) as [pool|]; [|apply extendsAt_refl].
  destruct (pool _) as [store|]; [|apply extendsAt_refl].
  split_and!; cbn [mapTxsRounds setMapTxsRounds].
  - intros hash info Hm. rewrite lookup_insert_ne; [done|]. congruence.
  - intros hash Hne. rewrite lookup_insert_ne; [done|]. congruence.
  - done.
Qed.

(** X16.  A notification never disturbs what is pending.  Whatever the pool
    delivers to receivedBlockTx, receivedRewardTx or receivedUnsignedTx, and
    at whatever round, every pending record stays exactly as it is (a hash
    keeps the round of its first arrival), no hash other than the delivered
    key gets a record, and nothing but the pending map is changed. *)
Theorem callbacks_keep_pending_records
    (MetachainShardId : N) (ShardCacherIdentifier : N → N → string)
    (index : Z) (tpc : txsPoolsCleaner) (key : option string) (value : poolValue) :
  extendsAt key tpc (receivedBlockTx ShardCacherIdentifier index tpc key value)
  ∧ extendsAt key tpc
      (receivedRewardTx MetachainShardId ShardCacherIdentifier index tpc key value)
  ∧ extendsAt key tpc (receivedUnsignedTx ShardCacherIdentifier index tpc key value).
Proof.
  unfold receivedBlockTx, receivedRewardTx, receivedUnsignedTx.
  destruct key as [key|]; [|by split_and!; apply extendsAt_refl].
  split_and!.
  - destruct value; try apply extendsAt_refl. apply processReceivedTx_extends.
  - apply processReceivedTx_extends.
  - destruct value as [| SndAddr RcvAddr |]; try apply extendsAt_refl.
    unfold computeSenderAndReceiverShards. rewrite !getShardFromAddress_spec.
    apply processReceivedTx_extends.
Qed.

Lemma processReceivedTx_new ShardCacherIdentifier index tpc key sender receiver txType pool :
  mapTxsRounds tpc !! key = None →
  getTransactionPool tpc txType = Some pool →
  mapTxsRounds (processReceivedTx ShardCacherIdentifier index tpc key sender receiver txType)
  = match pool (ShardCacherIdentifier sender receiver) with
    | Some store => <[key := MkTxInfo index sender receiver txType store]> (mapTxsRounds tpc)
    | None => mapTxsRounds tpc
    end.
Proof.
  intros Hk Hp. unfold processReceivedTx. rewrite Hk, Hp.
  by destruct (pool _).
Qed.

(** X17.  What the first notification of a hash registers.  For a key without a
    pending record: receivedBlockTx records the round, the shards of the
    wrapped transaction and the sub-cache of the block pool for that shard
    pair; receivedRewardTx, whatever the value, records the round, the
    metachain as sender, the self-shard as receiver and the sub-cache of the
    reward pool for that pair.  When the pool has no sub-cache for the pair
    nothing is recorded, nor when the key is nil or the value of a block or
    unsigned notification has the wrong type. *)
Theorem callbacks_register_first_arrival
    (MetachainShardId : N) (ShardCacherIdentifier : N → N → string)
    (index : Z) (tpc : txsPoolsCleaner) (key : string) :
  mapTxsRounds tpc !! key = None →
  (∀ sender receiver,
     mapTxsRounds (receivedBlockTx ShardCacherIdentifier index tpc (Some key)
                     (WrappedTransaction sender receiver))
     = match blockTransactionsPool tpc (ShardCacherIdentifier sender receiver) with
       | Some store =>
         <[key := MkTxInfo index sender receiver blockTx store]> (mapTxsRounds tpc)
       | None => mapTxsRounds tpc
       end)
  ∧ (∀ value,
       mapTxsRounds (receivedRewardTx MetachainShardId ShardCacherIdentifier index tpc
                       (Some key) value)
       = match rewardTransactionsPool tpc
                 (ShardCacherIdentifier MetachainShardId (SelfId (shardCoordinator tpc))) with
         | Some store =>
           <[key := MkTxInfo index MetachainShardId (SelfId (shardCoordinator tpc))
                      rewardTx store]> (mapTxsRounds tpc)
         | None => mapTxsRounds tpc
         end)
  ∧ (∀ value, (∀ sender receiver, value ≠ WrappedTransaction sender receiver) →
       receivedBlockTx ShardCacherIdentifier index tpc (Some key) value = tpc)
  ∧ (∀ value, (∀ SndAddr RcvAddr, value ≠ TransactionHandler SndAddr RcvAddr) →
       receivedUnsignedTx ShardCacherIdentifier index tpc (Some key) value = tpc)
  ∧ (∀ value,
       receivedBlockTx ShardCacherIdentifier index tpc None value = tpc
       ∧ receivedRewardTx MetachainShardId ShardCacherIdentifier index tpc None value = tpc
       ∧ receivedUnsignedTx ShardCacherIdentifier index tpc None value = tpc).
Proof.
  intros Hk. split_and!.
  - intros sender receiver. cbn [receivedBlockTx].
    by apply processReceivedTx_new.
  - intros value. cbn [receivedRewardTx].
    by apply processReceivedTx_new.
  - intros value Hv. destruct value as [s r| |]; [by destruct (Hv s r)|done..].
  - intros value Hv. destruct value as [|a b|]; [done|by destruct (Hv a b)|done].
  - done.
Qed.

Lemma callbacks_register_first_arrival_witness :
  mapTxsRounds (receivedBlockTx exampleIdentifier 100 exampleCleaner (Some "H")
                  (WrappedTransaction 0 1))
  = {[ "H" := MkTxInfo 100 0 1 blockTx 7%nat ]}.
Proof.
  destruct (callbacks_register_first_arrival 9 exampleIdentifier 100 exampleCleaner "H")
    as (Hblock & _); [reflexivity|].
  rewrite Hblock. reflexivity.
Defined.

(** ** From the notification to the pass *)

(** X18.  A hash that the block pool announces at round r, and that is still in
    its sub-cache when the reaper passes, is judged by the round of that first
    announcement: announcing it again, at any round and with any value,
    changes nothing; the pass keeps the record and the pooled transaction
    while the age read at its visit is within the threshold, and once the age
    is over the threshold it removes the hash from the sub-cache that the
    block pool gave for the shard pair of the transaction, and forgets the
    record. *)
Theorem block_tx_lifecycle
    (ShardCacherIdentifier : N → N → string)
    (MaxRoundsToKeepUnprocessedTransactions : Z)
    (r : Z) (tpc : txsPoolsCleaner) (key : string) (sender receiver : N)
    (store : storeId) (v : poolValue)
    (order : list (string * txInfo)) (Index : nat → Z) (w : pools) :
  mapTxsRounds tpc !! key = None →
  blockTransactionsPool tpc (ShardCacherIdentifier sender receiver) = Some store →
  content w !! (store, key) = Some v →
  order
  ≡ₚ map_to_list
       (mapTxsRounds (receivedBlockTx ShardCacherIdentifier r tpc (Some key)
                        (WrappedTransaction sender receiver))) →
  let tpc1 := receivedBlockTx ShardCacherIdentifier r tpc (Some key)
                (WrappedTransaction sender receiver) in
  let result :=
    cleanTxsPoolsIfNeededIn MaxRoundsToKeepUnprocessedTransactions order Index tpc1 w in
  (∀ r' value', receivedBlockTx ShardCacherIdentifier r' tpc1 (Some key) value' = tpc1)
  ∧ ∃ i, order !! i = Some (key, MkTxInfo r sender receiver blockTx store)
         ∧ (int64 (Index i - r) ≤ MaxRoundsToKeepUnprocessedTransactions →
            mapTxsRounds result.2.1.1 !! key
            = Some (MkTxInfo r sender receiver blockTx store)
            ∧ content result.2.1.2 !! (store, key) = Some v)
         ∧ (MaxRoundsToKeepUnprocessedTransactions < int64 (Index i - r) →
            mapTxsRounds result.2.1.1 !! key = None
            ∧ content result.2.1.2 !! (store, key) = None
            ∧ CallRemove store key ∈ storeCalls result.2.1.2).
Proof.
  intros Hk Hpool Hc Hp. cbv zeta.
  set (tpc1 := receivedBlockTx ShardCacherIdentifier r tpc (Some key)
                 (WrappedTransaction sender receiver)) in *.
  set (info := MkTxInfo r sender receiver blockTx store).
  assert (Hm1 : mapTxsRounds tpc1 !! key = Some info).
  { unfold tpc1. cbn [receivedBlockTx].
    rewrite (processReceivedTx_new _ _ _ _ _ _ _ (blockTransactionsPool tpc)) by done.
    rewrite Hpool. apply lookup_insert_eq. }
  split.
  - intros r' value'. destruct value' as [s' r''| |]; [|done..].
    cbn [receivedBlockTx]. unfold processReceivedTx. by rewrite Hm1.
  - destruct (order_of_map order _ Hp) as [_ Hin].
    apply Hin, list_elem_of_lookup in Hm1 as [i Hi]. exists i. split; [done|].
    destruct (pass_tracked MaxRoundsToKeepUnprocessedTransactions order Index tpc1 w
                i key info Hp Hi) as (Hm' & Hc' & Hr').
    assert (Hpres : present w (key, info) = true).
    { apply present_spec. cbn [fst snd txStore info]. by rewrite Hc. }
    unfold cleaned in Hc', Hr'. rewrite Hpres in Hm', Hc', Hr'. cbn [andb] in *.
    split.
    + intros Hle. assert (Hst : stale MaxRoundsToKeepUnprocessedTransactions
                                  (Index i) (key, info) = false).
      { unfold stale. apply negb_false_iff, Z.leb_le. done. }
      rewrite Hst in Hm', Hc'. cbn [negb] in Hm'. split; [done|]. by rewrite Hc'.
    + intros Hlt. assert (Hst : stale MaxRoundsToKeepUnprocessedTransactions
                                  (Index i) (key, info) = true).
      { by apply stale_spec. }
      rewrite Hst in Hm', Hc', Hr'. cbn [negb] in Hm'. split_and!; [done| |].
      * rewrite Hc'. by rewrite bool_decide_eq_true_2.
      * apply Hr'. by right.
Qed.

Lemma block_tx_lifecycle_witness :
  mapTxsRounds (cleanTxsPoolsIfNeeded 5 (λ _, 106) cleanerWithH poolsWithH).2.1.1 !! "H"
  = None.
Proof.
  destruct (block_tx_lifecycle exampleIdentifier 5 100 exampleCleaner "H" 0 1 7%nat
              (WrappedTransaction 0 1)
              (map_to_list (mapTxsRounds cleanerWithH)) (λ _, 106) poolsWithH
              eq_refl eq_refl eq_refl (reflexivity _))
    as (_ & i & Hi & _ & Hstale).
  destruct Hstale as (Hm & _); [vm_compute; reflexivity|].
  exact Hm.
Defined.

(** ** Scenarios of the whole pass *)

(** The pending records "H" (round 100, in the pool) and "G" (round 103, in
    the pool) and "F" (round 90, no longer in the pool). *)
Lemma reaper_pass_pending_map_witness :
  (cleanTxsPoolsIfNeeded 5 (λ _, 106) cleanerWithHGF poolsWithHG).1 = 1%nat
  ∧ mapTxsRounds (cleanTxsPoolsIfNeeded 5 (λ _, 106) cleanerWithHGF poolsWithHG).2.1.1
    ⊆ mapTxsRounds cleanerWithHGF.
Proof.
  destruct (reaper_pass_pending_map 5 (map_to_list (mapTxsRounds cleanerWithHGF))
              (λ _, 106) cleanerWithHGF poolsWithHG (reflexivity _))
    as (Hsub & _ & _ & Hsize & _).
  split; [|exact Hsub].
  unfold cleanTxsPoolsIfNeeded. rewrite Hsize. vm_compute. reflexivity.
Defined.

Lemma reaper_pass_pools_frame_witness :
  content (cleanTxsPoolsIfNeeded 5 (λ _, 106) cleanerWithHGF poolsWithHG).2.1.2
  ⊆ content poolsWithHG
  ∧ content (cleanTxsPoolsIfNeeded 5 (λ _, 106) cleanerWithHGF poolsWithHG).2.1.2
    !! (7%nat, "K") = Some OtherValue.
Proof.
  destruct (reaper_pass_pools_frame 5 (map_to_list (mapTxsRounds cleanerWithHGF))
              (λ _, 106) cleanerWithHGF poolsWithHG (reflexivity _))
    as (Hsub & _ & Hframe & _).
  split; [exact Hsub|].
  destruct (Hframe 7%nat "K") as [Hk _]; [vm_compute; reflexivity|].
  etrans; [exact Hk|]. vm_compute. reflexivity.
Defined.

Lemma reaper_pass_idempotent_witness :
  (cleanTxsPoolsIfNeeded 5 (λ _, 106)
     (cleanTxsPoolsIfNeeded 5 (λ _, 106) cleanerWithHGF poolsWithHG).2.1.1
     (cleanTxsPoolsIfNeeded 5 (λ _, 106) cleanerWithHGF poolsWithHG).2.1.2).2.2 = 0%nat.
Proof.
  destruct (reaper_pass_idempotent 5 (map_to_list (mapTxsRounds cleanerWithHGF))
              (map_to_list
                 (mapTxsRounds
                    (cleanTxsPoolsIfNeededIn 5 (map_to_list (mapTxsRounds cleanerWithHGF))
                       (λ _, 106) cleanerWithHGF poolsWithHG).2.1.1))
              106 cleanerWithHGF poolsWithHG (reflexivity _) (reflexivity _))
    as (_ & _ & Hcount & _).
  exact Hcount.
Defined.

End PoolsCleaner.

Module InterceptorsContainer.

Local Open Scope N_scope.

(** A non-nil value of an interface type.  A collaborator is an
    [option handle]: check.IfNil holds of [None], which stands for the nil
    interface and for a nil pointer inside an interface. *)
Inductive handle := Handle (id : nat).

Definition IfNil (h : option handle) : bool :=
  match h with None => true | Some _ => false end.

(** The errors of package process that the constructor names, and those
    that the functions it calls may return. *)
Inductive error :=
  | ErrNilKeyGen
  | ErrNilSingleSigner
  | ErrNilAddressConverter
  | ErrNilEconomicsFeeHandler
  | ErrNilHeaderSigVerifier
  | ErrInvalidChainID
  | ErrNilValidityAttester
  | ErrNilEpochStartTrigger
  | ErrNilShardCoordinator
  | ErrNilMarshalizer
  | ErrOther (name : string).

#[global] Instance error_eq_dec : EqDecision error.
Proof. solve_decision. Defined.

(** type ShardInterceptorsContainerFactoryArgs struct: the fields that the
    constructor reads. *)
Record ShardInterceptorsContainerFactoryArgs := MkArgs {
  Accounts : option handle;
  ShardCoordinator : option handle;
  NodesCoordinator : option handle;
  Messenger : option handle;
  Store : option handle;
  Marshalizer : option handle;
  Hasher : option handle;
  KeyGen : option handle;
  BlockSignKeyGen : option handle;
  SingleSigner : option handle;
  BlockSingleSigner : option handle;
  MultiSigner : option handle;
  DataPool : option handle;
  AddrConverter : option handle;
  MaxTxNonceDeltaAllowed : Z;
  TxFeeHandler : option handle;
  BlackList : option handle;
  HeaderSigVerifier : option handle;
  ChainID : list Byte.byte;
  SizeCheckDelta : N;       (* uint32 *)
  ValidityAttester : option handle;
  EpochStartTrigger : option handle;
  AntifloodHandler : option handle;
}.

Definition setMarshalizer (args : ShardInterceptorsContainerFactoryArgs)
    (m : option handle) : ShardInterceptorsContainerFactoryArgs :=
  MkArgs (Accounts args) (ShardCoordinator args) (NodesCoordinator args)
    (Messenger args) (Store args) m (Hasher args) (KeyGen args)
    (BlockSignKeyGen args) (SingleSigner args) (BlockSingleSigner args)
    (MultiSigner args) (DataPool args) (AddrConverter args)
    (MaxTxNonceDeltaAllowed args) (TxFeeHandler args) (BlackList args)
    (HeaderSigVerifier args) (ChainID args) (SizeCheckDelta args)
    (ValidityAttester args) (EpochStartTrigger args) (AntifloodHandler args).

(** type shardInterceptorsContainerFactory struct.  Every field of the
    factory, of its base and of argInterceptorFactory is a copy of a field of
    the arguments (the marshalizer being the wrapped one); they are kept
    together in [builtFrom].  The container is new and holds no interceptor. *)
Record shardInterceptorsContainerFactory := MkFactory {
  builtFrom : ShardInterceptorsContainerFactoryArgs;
  container : list (string * handle);
  globalThrottler : handle;
}.

(** *** Collaborators of the scenarios *)



Section Constructor.

(** Functions of other packages that the sources call but do not contain:
    marshal.NewSizeCheckUnmarshalizer, checkBaseParams (same package, another
    file) and throttler.NewNumGoRoutineThrottler applied to the constant
    numGoRoutines. *)
Variable NewSizeCheckUnmarshalizer : option handle → N → option handle.
Variable checkBaseParams :
  option handle → option handle → option handle → option handle →
  option handle → option handle → option handle → option handle →
  option handle → option handle → option handle → option error.
Variable NewNumGoRoutineThrottler : handle + error.

(** func NewShardInterceptorsContainerFactory.  The result is the pair that
    Go returns: the factory (nil is [None]) and the error (nil is [None]). *)
Definition NewShardInterceptorsContainerFactory
    (args : ShardInterceptorsContainerFactoryArgs)
  : option shardInterceptorsContainerFactory * option error :=
  let args :=
    if 0 <? SizeCheckDelta args
    then setMarshalizer args (NewSizeCheckUnmarshalizer (Marshalizer args) (SizeCheckDelta args))
    else args in
  match checkBaseParams (ShardCoordinator args) (Accounts args) (Marshalizer args)
          (Hasher args) (Store args) (DataPool args) (Messenger args)
          (MultiSigner args) (NodesCoordinator args) (BlackList args)
          (AntifloodHandler args) with
  | Some err => (None, Some err)
  | None =>
    if IfNil (KeyGen args) then (None, Some ErrNilKeyGen)
    else if IfNil (SingleSigner args) then (None, Some ErrNilSingleSigner)
    else if IfNil (AddrConverter args) then (None, Some ErrNilAddressConverter)
    else if IfNil (TxFeeHandler args) then (None, Some ErrNilEconomicsFeeHandler)
    else if IfNil (BlockSignKeyGen args) then (None, Some ErrNilKeyGen)
    else if IfNil (BlockSingleSigner args) then (None, Some ErrNilSingleSigner)
    else if IfNil (HeaderSigVerifier args) then (None, Some ErrNilHeaderSigVerifier)
    else if bool_decide (length (ChainID args) = 0%nat) then (None, Some ErrInvalidChainID)
    else if IfNil (ValidityAttester args) then (None, Some ErrNilValidityAttester)
    else if IfNil (EpochStartTrigger args) then (None, Some ErrNilEpochStartTrigger)
    else
      match NewNumGoRoutineThrottler with
      | inr err => (None, Some err)
      | inl t => (Some (MkFactory args [] t), None)
      end
  end.

(** The base check as the constructor calls it, on the arguments with the
    marshalizer wrapped when SizeCheckDelta > 0. *)
Definition baseCheck (args : ShardInterceptorsContainerFactoryArgs) : option error :=
  let m := if 0 <? SizeCheckDelta args
           then NewSizeCheckUnmarshalizer (Marshalizer args) (SizeCheckDelta args)
           else Marshalizer args in
  checkBaseParams (ShardCoordinator args) (Accounts args) m
    (Hasher args) (Store args) (DataPool args) (Messenger args)
    (MultiSigner args) (NodesCoordinator args) (BlackList args)
    (AntifloodHandler args).

Lemma NewShardInterceptorsContainerFactory_base args :
  NewShardInterceptorsContainerFactory args
  = match baseCheck args with
    | Some err => (None, Some err)
    | None =>
      if IfNil (KeyGen args) then (None, Some ErrNilKeyGen)
      else if IfNil (SingleSigner args) then (None, Some ErrNilSingleSigner)
      else if IfNil (AddrConverter args) then (None, Some ErrNilAddressConverter)
      else if IfNil (TxFeeHandler args) then (None, Some ErrNilEconomicsFeeHandler)
      else if IfNil (BlockSignKeyGen args) then (None, Some ErrNilKeyGen)
      else if IfNil (BlockSingleSigner args) then (None, Some ErrNilSingleSigner)
      else if IfNil (HeaderSigVerifier args) then (None, Some ErrNilHeaderSigVerifier)
      else if bool_decide (length (ChainID args) = 0%nat) then (None, Some ErrInvalidChainID)
      else if IfNil (ValidityAttester args) then (None, Some ErrNilValidityAttester)
      else if IfNil (EpochStartTrigger args) then (None, Some ErrNilEpochStartTrigger)
      else
        match NewNumGoRoutineThrottler with
        | inr err => (None, Some err)
        | inl t =>
          (Some (MkFactory
                   (if 0 <? SizeCheckDelta args
                    then setMarshalizer args
                           (NewSizeCheckUnmarshalizer (Marshalizer args) (SizeCheckDelta args))
                    else args) [] t), None)
        end
    end.
Proof.
  unfold NewShardInterceptorsContainerFactory, baseCheck.
  by destruct (0 <? SizeCheckDelta args).
Qed.


(** X19.  The constructor returns a factory or an error, never both and never
    neither.  It returns a factory exactly when the base check passes on the
    arguments with the marshalizer wrapped, the nine collaborators that it
    checks itself are non-nil, ChainID is not empty and the throttler is
    created.  The factory then has that throttler, a container without
    interceptors, and the arguments it was given, in which the marshalizer is
    replaced by the size-checking one exactly when SizeCheckDelta > 0. *)
Theorem constructor_succeeds_iff (args : ShardInterceptorsContainerFactoryArgs) :
  let result := NewShardInterceptorsContainerFactory args in
  (is_Some result.1 ↔ result.2 = None)
  ∧ (is_Some result.1
     ↔ baseCheck args = None
       ∧ is_Some (KeyGen args) ∧ is_Some (SingleSigner args)
       ∧ is_Some (AddrConverter args) ∧ is_Some (TxFeeHandler args)
       ∧ is_Some (BlockSignKeyGen args) ∧ is_Some (BlockSingleSigner args)
       ∧ is_Some (HeaderSigVerifier args) ∧ ChainID args ≠ []
       ∧ is_Some (ValidityAttester args) ∧ is_Some (EpochStartTrigger args)
       ∧ ∃ t, NewNumGoRoutineThrottler = inl t)
  ∧ (∀ factory, result.1 = Some factory →
       NewNumGoRoutineThrottler = inl (globalThrottler factory)
       ∧ container factory = []
       ∧ builtFrom factory
         = setMarshalizer args
             (if 0 <? SizeCheckDelta args
              then NewSizeCheckUnmarshalizer (Marshalizer args) (SizeCheckDelta args)
              else Marshalizer args)
       ∧ (SizeCheckDelta args = 0 → builtFrom factory = args)).
Proof.
  cbv zeta. rewrite NewShardInterceptorsContainerFactory_base.
  assert (Hchain : bool_decide (length (ChainID args) = 0%nat) = true ↔ ChainID args = []).
  { rewrite bool_decide_eq_true. apply length_zero_iff_nil. }
  destruct (baseCheck args) as [err|].
  { split_and!; cbn [fst snd].
    - split; [by intros [? ?]|done].
    - split; [by intros [? ?]|by intros [? _]].
    - done. }
  destruct (KeyGen args) as [h1|], (SingleSigner args) as [h2|],
    (AddrConverter args) as [h3|], (TxFeeHandler args) as [h4|],
    (BlockSignKeyGen args) as [h5|], (BlockSingleSigner args) as [h6|],
    (HeaderSigVerifier args) as [h7|]; cbn [IfNil fst snd];
    try (split_and!; cbn [fst snd];
         [split; [by intros [? ?]|done]
         |split; [by intros [? ?]|intros (_ & H1 & H2 & H3 & H4 & H5 & H6 & H7 & _);
           first [by destruct H1|by destruct H2|by destruct H3|by destruct H4
                 |by destruct H5|by destruct H6|by destruct H7]]
         |done]).
  destruct (bool_decide (length (ChainID args) = 0%nat)).
  { assert (Hc : ChainID args = []) by (by apply Hchain).
    split_and!; cbn [fst snd].
    - split; [by intros [? ?]|done].
    - split; [by intros [? ?]|]. intros (_ & _ & _ & _ & _ & _ & _ & _ & Hne & _). done.
    - done. }
  assert (Hne : ChainID args ≠ []).
  { intros He. apply Hchain in He. discriminate. }
  destruct (ValidityAttester args) as [h8|], (EpochStartTrigger args) as [h9|];
    cbn [IfNil fst snd];
    try (split_and!; cbn [fst snd];
         [split; [by intros [? ?]|done]
         |split; [by intros [? ?]
                 |intros (_ & _ & _ & _ & _ & _ & _ & _ & _ & H8 & H9 & _);
                  first [by destruct H8|by destruct H9]]
         |done]).
  destruct NewNumGoRoutineThrottler as [t|err]; cbn [fst snd].
  - split_and!.
    + done.
    + split; [intros _|done]. split_and!; eauto.
    + intros factory [= <-]. cbn [globalThrottler container builtFrom].
      split_and!; [done|done| |].
      * by destruct (0 <? SizeCheckDelta args); destruct args.
      * intros ->. done.
  - split_and!.
    + split; [by intros [? ?]|done].
    + split; [by intros [? ?]|]. intros (_ & _ & _ & _ & _ & _ & _ & _ & _ & _ & _ & t & [=]).
    + done.
Qed.

End Constructor.

(** ** Scenarios *)



End InterceptorsContainer.
